(** * Word-frequency MapReduce pipeline and file organizer

    A shallow embedding of [task_2.py] (fetch, normalize, tokenize, map,
    shuffle/reduce, rank, visualize) and of [task_1.py] (the file organizer),
    together with the properties the specification states about them.

    Python values are modelled as follows.
    - [str] is a sequence of Unicode code points: [pystr := list N].
    - [int] is [Z].
    - [dict] (and [Counter]) is an insertion-ordered association list with the
      update-in-place / append-at-end behaviour of CPython's dictionaries; its
      extensional content is the [gmap] obtained with [to_map].
    - exceptions are values of a sum type. *)

From stdpp Require Import base list gmap strings sorting.
From Stdlib Require Import ZArith Lia.

Local Open Scope Z_scope.

(* ===================================================================== *)
(** ** Python strings *)
(* ===================================================================== *)

Module PyStr.

(** A Python string: its code points, in order. *)
Abbreviation pystr := (list N) (only parsing).

(** Reading a literal: the code points of an 8-bit string. *)
Definition str (s : string) : pystr :=
  Ascii.N_of_ascii <$> String.list_ascii_of_string s.

(** [string.punctuation]: the 32 ASCII punctuation characters
    ! .. /   : .. @   [ .. `   { .. ~ *)
Definition punctuation : pystr :=
  [33; 34; 35; 36; 37; 38; 39; 40; 41; 42; 43; 44; 45; 46; 47;
   58; 59; 60; 61; 62; 63; 64;
   91; 92; 93; 94; 95; 96;
   123; 124; 125; 126]%N.

Definition is_punctuation (c : N) : bool := bool_decide (c ∈ punctuation).

(** ASCII letters and digits, [string.ascii_letters] and [string.digits]. *)
Definition is_ascii_letter (c : N) : bool :=
  ((65 <=? c) && (c <=? 90) || (97 <=? c) && (c <=? 122))%N.

Definition is_digit (c : N) : bool := ((48 <=? c) && (c <=? 57))%N.

(** [str.isspace] on one code point (CPython's [Py_UNICODE_ISSPACE]): the
    characters [str.split()] treats as separators. *)
Definition isspace (c : N) : bool :=
  ((9 <=? c) && (c <=? 13) || (28 <=? c) && (c <=? 32)
   || (c =? 133) || (c =? 160) || (c =? 5760)
   || (8192 <=? c) && (c <=? 8202)
   || (c =? 8232) || (c =? 8233) || (c =? 8239) || (c =? 8287)
   || (c =? 12288))%N.

(** Letters, digits and whitespace: what a normalizer has to leave alone. *)
Definition is_letter_digit_space (c : N) : bool :=
  is_ascii_letter c || is_digit c || isspace c.

(** [str.maketrans(x, y, z)]: a table from code points to either a
    replacement code point or [None] (delete).  The characters of [z] are
    entered last, so they win over those of [x]. *)
Definition maketrans (x y z : pystr) : gmap N (option N) :=
  foldl (λ table c, <[c := None]> table)
        (list_to_map (zip x (Some <$> y))) z.

(** [s.translate(table)]: a character missing from the table is kept, one
    mapped to [None] is deleted, one mapped to a code point is replaced. *)
Definition translate (table : gmap N (option N)) (s : pystr) : pystr :=
  c ← s;
  match table !! c with
  | None => [c]
  | Some None => []
  | Some (Some d) => [d]
  end.

(** A string without whitespace. *)
Definition no_space (w : pystr) : Prop := Forall (λ c, isspace c = false) w.

(** [s.split()] with no separator: maximal runs of non-whitespace
    characters, in source order.  [cur] is the run being read. *)
Fixpoint split_from (cur : pystr) (s : pystr) : list pystr :=
  match s with
  | [] => match cur with [] => [] | _ => [cur] end
  | c :: s' =>
      if isspace c
      then match cur with
           | [] => split_from [] s'
           | _ => cur :: split_from [] s'
           end
      else split_from (cur ++ [c]) s'
  end.

Definition split (s : pystr) : list pystr := split_from [] s.

(** ASCII lowercasing; [str.lower] agrees with it on ASCII text. *)
Definition ascii_lower (s : pystr) : pystr :=
  (λ c, if ((65 <=? c) && (c <=? 90))%N then (c + 32)%N else c) <$> s.

End PyStr.
Export PyStr.

(* ===================================================================== *)
(** ** Python dictionaries and [collections.Counter] *)
(* ===================================================================== *)

Module PyDict.

(** A dictionary keeps its items in insertion order. *)
Abbreviation dict K V := (list (K * V)) (only parsing).

(** A [Counter] maps words to integer counts. *)
Abbreviation Counter := (list (list N * Z)) (only parsing).

Section Dict.
Context {K : Type} `{EqDecision K} {V : Type}.

(** [d.get(k)]: the value stored under [k], if any. *)
Fixpoint dict_get (d : dict K V) (k : K) : option V :=
  match d with
  | [] => None
  | (k', v) :: d' => if decide (k' = k) then Some v else dict_get d' k
  end.

(** [d[k] = v]: an existing key keeps its position, a new key goes last. *)
Fixpoint dict_set (d : dict K V) (k : K) (v : V) : dict K V :=
  match d with
  | [] => [(k, v)]
  | (k', v') :: d' =>
      if decide (k' = k) then (k, v) :: d' else (k', v') :: dict_set d' k v
  end.

(** [d.keys()], [d.values()], [d.items()], [len(d)]. *)
Definition keys (d : dict K V) : list K := d.*1.
Definition values (d : dict K V) : list V := d.*2.
Definition items (d : dict K V) : list (K * V) := d.
Definition len (d : dict K V) : nat := length d.

End Dict.

(** The content of a dictionary, forgetting insertion order.  Python's [==]
    on dictionaries compares exactly this. *)
Definition to_map `{Countable K} {V : Type} (d : dict K V) : gmap K V :=
  list_to_map d.

(** [Counter.__getitem__]: a missing word counts zero (and is not inserted). *)
Definition counter_get (c : Counter) (w : pystr) : Z :=
  default 0 (dict_get c w).

(** [sum(c.values())]. *)
Definition total (c : Counter) : Z := foldr Z.add 0 (values c).

(** The sum of the counts that a sequence of pairs gives to the word [w]. *)
Definition count_word (w : pystr) (mapped : list (pystr * Z)) : Z :=
  foldr Z.add 0 (filter (λ p, p.1 = w) mapped).*2.

(** The elements of a sequence, each one once, in the order in which they
    first occur. *)
Fixpoint first_occurrences (l : list pystr) : list pystr :=
  match l with
  | [] => []
  | x :: l' => x :: filter (λ y, y ≠ x) (first_occurrences l')
  end.

(** Adding [p.2] to the count of [p.1], on the content of a table. *)
Definition add_count (m : gmap (list N) Z) (p : list N * Z) : gmap (list N) Z :=
  <[p.1 := default 0 (m !! p.1) + p.2]> m.

(** [sorted(items, key=itemgetter(1), reverse=True)]: a stable sort by
    decreasing count.  [insert_desc] puts an item before the first item whose
    count is not larger, so that items of equal count keep their order. *)
Fixpoint insert_desc {A : Type} (x : A * Z) (l : list (A * Z)) : list (A * Z) :=
  match l with
  | [] => [x]
  | y :: l' =>
      if y.2 <=? x.2 then x :: y :: l' else y :: insert_desc x l'
  end.

Definition sorted_desc {A : Type} (l : list (A * Z)) : list (A * Z) :=
  foldr insert_desc [] l.

(** The order of a ranked sequence: counts do not increase. *)
Definition count_ge {A : Type} (x y : A * Z) : Prop := y.2 ≤ x.2.

(** [heapq.nlargest(n, items, key=itemgetter(1))]: the [n] first items of
    the decreasing sort; nothing at all when [n <= 0]. *)
Definition nlargest {A : Type} (n : Z) (l : list (A * Z)) : list (A * Z) :=
  if n <=? 0 then [] else take (Z.to_nat n) (sorted_desc l).

(** [c.most_common(n)]. *)
Definition most_common (c : Counter) (n : Z) : list (pystr * Z) :=
  nlargest n (items c).

End PyDict.
Export PyDict.

(* ===================================================================== *)
(** ** [concurrent.futures.ThreadPoolExecutor] *)
(* ===================================================================== *)

Module Pool.

Section Executor.
Context {A B : Type} (f : A → B).

(** The state of an executor: the FIFO work queue of (future index, argument)
    items, what each worker thread is running, and one future per submitted
    task ([None] while it is pending). *)
Record pool := Pool {
  queue : list (nat * A);
  workers : list (option (nat * A));
  futures : list (option B)
}.

(** [executor.map(f, xs)] first submits one task per element, in order. *)
Definition submit_all (max_workers : nat) (xs : list A) : pool :=
  Pool (imap (λ i x, (i, x)) xs)
       (replicate max_workers None)
       (replicate (length xs) None).

(** One scheduling step of worker [w]: a busy worker completes its task and
    stores the result in the task's future; an idle worker takes the head of
    the queue; otherwise nothing happens. *)
Definition worker_step (p : pool) (w : nat) : pool :=
  match workers p !! w with
  | Some (Some (i, x)) =>
      Pool (queue p) (<[w := None]> (workers p))
           (<[i := Some (f x)]> (futures p))
  | Some None =>
      match queue p with
      | t :: q => Pool q (<[w := Some t]> (workers p)) (futures p)
      | [] => p
      end
  | None => p
  end.

(** An interleaving is the list of the workers scheduled, in order. *)
Definition run (p : pool) (schedule : list nat) : pool :=
  foldl worker_step p schedule.

(** One round in which every worker is scheduled once. *)
Definition sweep (p : pool) : pool := run p (seq 0 (length (workers p))).

(** Leaving the [with] block calls [shutdown(wait=True)]: the workers keep
    running until the queue is drained and every one of them is idle. *)
Definition shutdown_wait (p : pool) : pool :=
  Nat.iter (2 * length (futures p)) sweep p.

(** Iterating over the result of [executor.map] takes the result of each
    future in submission order; a future that never completed has none. *)
Definition results (p : pool) : option (list B) := mapM id (futures p).

(** [executor.map(f, xs)] inside [with ThreadPoolExecutor(max_workers)], the
    results being read after the block: [schedule] is the interleaving the
    threads happened to follow before the shutdown. *)
Definition executor_map (max_workers : nat) (schedule : list nat)
    (xs : list A) : option (list B) :=
  results (shutdown_wait (run (submit_all max_workers xs) schedule)).

(** What holds of every state the executor goes through for the arguments
    [xs]: a task is queued or running with its own argument, a completed
    future holds the image of its argument, and a pending future belongs to
    a task that is still queued or running. *)
Record pool_inv (xs : list A) (p : pool) : Prop := PoolInv {
  inv_futures_length : length (futures p) = length xs;
  inv_queue : ∀ i x, (i, x) ∈ queue p → xs !! i = Some x;
  inv_workers : ∀ w i x, workers p !! w = Some (Some (i, x)) → xs !! i = Some x;
  inv_done : ∀ i y, futures p !! i = Some (Some y) →
             ∃ x, xs !! i = Some x ∧ y = f x;
  inv_pending : ∀ i, futures p !! i = Some None →
                (∃ x, (i, x) ∈ queue p)
                ∨ (∃ w x, workers p !! w = Some (Some (i, x)))
}.

(** Worker [w] has something to do. *)
Definition can_step (p : pool) (w : nat) : Prop :=
  (∃ t, workers p !! w = Some (Some t))
  ∨ (workers p !! w = Some None ∧ queue p ≠ []).

(** The pool has nothing left to do. *)
Definition idle (p : pool) : Prop :=
  queue p = [] ∧ Forall (λ r, r = None) (workers p).

(** Work left: two steps for a queued task, one for a running task. *)
Definition busy (r : option (nat * A)) : nat :=
  match r with Some _ => 1 | None => 0 end.

Definition work_left (p : pool) : nat :=
  2 * length (queue p) + sum_list_with busy (workers p).

End Executor.

(** [ThreadPoolExecutor()] without argument:
    [min(32, (os.cpu_count() or 1) + 4)]. *)
Definition default_max_workers (cpu_count : nat) : nat :=
  Nat.min 32 ((match cpu_count with O => 1 | _ => cpu_count end) + 4).

End Pool.
Export Pool.

(* ===================================================================== *)
(** ** [task_2.py]: the word-frequency pipeline *)
(* ===================================================================== *)

(** [str.lower] is Unicode lowercasing, a table of the Python runtime: the
    development is parametric in it. *)
Class StrLower := lower : pystr → pystr.

(** What the thread pool of one run looks like from outside: the number of
    CPUs and the interleaving its threads follow. *)
Record scheduling := Scheduling {
  cpu_count : nat;
  interleaving : list nat
}.

Module Task2.

(** Exceptions raised along the way. *)
Inductive exn :=
  | ConnectionError    (* [requests.get] could not reach the server *)
  | HTTPError (status : Z)   (* [raise_for_status] on a 4xx or 5xx answer *)
  | ValueError (expected got : nat).  (* unpacking the wrong number of values *)

(** What the run writes and calls, in order. *)
Inductive event :=
  | LogFetchError (url : pystr) (e : exn)
      (* error: Error fetching URL <url>: <e> *)
  | LogFailedToProceed
      (* error: Failed to proceed due to an error in fetching the text. *)
  | CallProcessText (text : pystr)
  | CallVisualize (word_counts : Counter) (top_n : Z)
  | Uncaught (e : exn).

(** The answer of the network to [requests.get(url)]. *)
Inductive response :=
  | Unreachable
  | Response (status_code : Z) (text : pystr).

(** [response.raise_for_status()]: raises for client and server errors. *)
Definition raise_for_status (status_code : Z) : option exn :=
  if (400 <=? status_code) && (status_code <? 600)
  then Some (HTTPError status_code) else None.

(** [TextFetcher.fetch]: the text, or [None] after logging the error. *)
Definition fetch (network : pystr → response) (url : pystr)
    : list event * option pystr :=
  match network url with
  | Unreachable => ([LogFetchError url ConnectionError], None)
  | Response status_code text =>
      match raise_for_status status_code with
      | Some e => ([LogFetchError url e], None)
      | None => ([], Some text)
      end
  end.

(** [zip] applied to the unpacked rows: nothing for no row, otherwise the
    tuple of the first components and the tuple of the second ones. *)
Inductive column :=
  | Words (ws : list pystr)
  | Counts (cs : list Z).

Definition zip_star (rows : list (pystr * Z)) : list column :=
  match rows with
  | [] => []
  | _ => [Words rows.*1; Counts rows.*2]
  end.

(** [a, b = it]: exactly two values, or [ValueError]. *)
Definition unpack2 {T : Type} (it : list T) : exn + T * T :=
  match it with
  | [a; b] => inr (a, b)
  | _ => inl (ValueError 2 (length it))
  end.

(** The horizontal bar chart handed to matplotlib. *)
Record figure := Figure {
  bar_widths : column;
  ytick_labels : column
}.

(** [DataVisualizer.visualize]. *)
Definition visualize (word_counts : Counter) (top_n : Z) : exn + figure :=
  let top_words := most_common word_counts top_n in
  match unpack2 (zip_star top_words) with
  | inl e => inl e
  | inr (words, counts) => inr (Figure counts words)
  end.

(** [TextProcessor.remove_punctuation]. *)
Definition remove_punctuation (text : pystr) : pystr :=
  translate (maketrans [] [] punctuation) text.

(** The body of the reducing loop: [result[word] += count]. *)
Definition reduce_step (result : Counter) (p : pystr * Z) : Counter :=
  let '(word, count) := p in
  dict_set result word (counter_get result word + count).

(** [TextProcessor.shuffle_and_reduce]: the loop over the mapped pairs,
    starting from the empty [Counter]. *)
Definition shuffle_and_reduce (mapped_values : list (pystr * Z)) : Counter :=
  foldl reduce_step [] mapped_values.

Section WithLower.
Context {str_lower : StrLower}.

(** [TextProcessor.map_function]. *)
Definition map_function (word : pystr) : pystr * Z := (lower word, 1).

(** [TextProcessor.process_text]. *)
Definition process_text (s : scheduling) (text : pystr) : option Counter :=
  let text := remove_punctuation text in
  let words := split text in
  mapped_values ←
    executor_map map_function (default_max_workers (cpu_count s))
                 (interleaving s) words;
  Some (shuffle_and_reduce mapped_values).

(** The ranked sequence of a text: [process_text] followed by the
    [most_common(top_n)] that [visualize] starts with. *)
Definition process (s : scheduling) (text : pystr) (top_n : Z)
    : option (list (pystr * Z)) :=
  word_counts ← process_text s text;
  Some (most_common word_counts top_n).

(** The script body for a given URL: fetch, and only for a non-empty text
    process and visualize. *)
Definition run_url (network : pystr → response) (s : scheduling)
    (url : pystr) : list event :=
  let '(log, text) := fetch network url in
  log ++
  match text with
  | Some ((_ :: _) as text) =>
      CallProcessText text ::
      match process_text s text with
      | Some word_counts =>
          CallVisualize word_counts 10 ::
          match visualize word_counts 10 with
          | inl e => [Uncaught e]
          | inr _ => []
          end
      | None => []
      end
  | _ => [LogFailedToProceed]
  end.

Definition URL : pystr := str "https://gutenberg.net.au/ebooks01/0100021.txt".

Definition main (network : pystr → response) (s : scheduling) : list event :=
  run_url network s URL.

End WithLower.

(** The pipeline stages a run went through. *)
Definition invokes_pipeline (e : event) : bool :=
  match e with
  | CallProcessText _ | CallVisualize _ _ => true
  | _ => false
  end.

Definition is_error_log (e : event) : bool :=
  match e with
  | LogFetchError _ _ | LogFailedToProceed => true
  | _ => false
  end.

End Task2.
Export Task2.

(* ===================================================================== *)
(** ** [task_1.py]: the file organizer *)
(* ===================================================================== *)

Module Task1.

(** A path is the list of its components below the root; a file system maps
    the paths that exist to what they hold.  The root always exists. *)
Abbreviation path := (list (list N)) (only parsing).

Inductive node :=
  | File (content : pystr)
  | Dir.

Abbreviation filesystem := (gmap (list (list N)) node) (only parsing).

Definition stat (fs : filesystem) (p : path) : option node :=
  match p with
  | [] => Some Dir
  | _ => fs !! p
  end.

Inductive os_error :=
  | FileNotFoundError
  | FileExistsError
  | NotADirectoryError
  | IsADirectoryError.

Inductive event :=
  | LogCopied (file dest_file : path)       (* info: Copied .. to .. *)
  | LogExists (dest_file : path)            (* warning: File .. already exists. Skipping. *)
  | LogCopyError (file : path) (e : os_error).  (* error: Error copying file .. *)

(** [p.name] and [p.parent]. *)
Definition name (p : path) : pystr := default [] (last p).
Definition parent (p : path) : path := removelast p.

(** [s.rfind(c)]: the index of the last occurrence of [c]. *)
Fixpoint rfind (c : N) (s : pystr) : option nat :=
  match s with
  | [] => None
  | x :: s' =>
      match rfind c s' with
      | Some i => Some (S i)
      | None => if decide (x = c) then Some 0%nat else None
      end
  end.

(** [p.suffix]: the last dot of the name and what follows, unless that dot
    starts or ends the name. *)
Definition suffix (p : path) : pystr :=
  match rfind 46%N (name p) with
  | Some i =>
      if bool_decide (0 < i < length (name p) - 1)%nat
      then drop i (name p) else []
  | None => []
  end.

(** [folder / segment]: an empty segment adds nothing. *)
Definition joinpath (folder : path) (segment : pystr) : path :=
  match segment with
  | [] => folder
  | _ => folder ++ [segment]
  end.

(** Matching a name against a pattern in which [*] stands for any run of
    characters and the others for themselves. *)
Fixpoint fnmatch (pat : pystr) (s : pystr) : bool :=
  match pat with
  | [] => match s with [] => true | _ => false end
  | c :: pat' =>
      if (c =? 42)%N
      then (fix star (s : pystr) : bool :=
              fnmatch pat' s ||
              match s with [] => false | _ :: s' => star s' end) s
      else match s with
           | x :: s' => (x =? c)%N && fnmatch pat' s'
           | [] => false
           end
  end.

(** [folder.rglob(pattern)]: the paths strictly below [folder] whose name
    matches, in the order the file system lists them. *)
Definition rglob (fs : filesystem) (folder : path) (pat : pystr) : list path :=
  filter (λ p, folder `prefix_of` p ∧ p ≠ folder ∧ fnmatch pat (name p) = true)
         (map_to_list fs).*1.

(** [p.mkdir(exist_ok=True)]. *)
Definition mkdir_exist_ok (fs : filesystem) (p : path) : os_error + filesystem :=
  match stat fs p with
  | Some Dir => inr fs
  | Some (File _) => inl FileExistsError
  | None =>
      match stat fs (parent p) with
      | Some Dir => inr (<[p := Dir]> fs)
      | Some (File _) => inl NotADirectoryError
      | None => inl FileNotFoundError
      end
  end.

(** [p.exists()]. *)
Definition exists_ (fs : filesystem) (p : path) : bool :=
  bool_decide (is_Some (stat fs p)).

(** [shutil.copy(src, dst)]: the content of the file [src] is written to
    [dst], or into [dst] under the name of [src] when [dst] is a directory. *)
Definition shutil_copy (fs : filesystem) (src dst : path)
    : os_error + filesystem :=
  match stat fs src with
  | None => inl FileNotFoundError
  | Some Dir => inl IsADirectoryError
  | Some (File content) =>
      let target :=
        match stat fs dst with
        | Some Dir => dst ++ [name src]
        | _ => dst
        end in
      match stat fs target, stat fs (parent target) with
      | Some Dir, _ => inl IsADirectoryError
      | _, Some Dir => inr (<[target := File content]> fs)
      | _, Some (File _) => inl NotADirectoryError
      | _, None => inl FileNotFoundError
      end
  end.

(** The folder [copy_file] sends a file to, and the place of the file
    there: [output_folder / extension] and [dest_folder / file.name]. *)
Definition dest_folder_of (output_folder file : path) : path :=
  joinpath output_folder (drop 1 (suffix file)).

Definition dest_file_of (output_folder file : path) : path :=
  dest_folder_of output_folder file ++ [name file].

(** A folder that [mkdir(exist_ok=True)] accepts: it is there already, or
    it is missing and its parent is there. *)
Definition creatable (fs : filesystem) (d : path) : Prop :=
  stat fs d = Some Dir ∨ stat fs d = None ∧ stat fs (parent d) = Some Dir.

(** [FileOrganizer.copy_file]: every exception is caught and logged. *)
Definition copy_file (output_folder : path)
    (st : filesystem * list event) (file : path) : filesystem * list event :=
  let '(fs, log) := st in
  let extension := drop 1 (suffix file) in
  let dest_folder := joinpath output_folder extension in
  match mkdir_exist_ok fs dest_folder with
  | inl e => (fs, log ++ [LogCopyError file e])
  | inr fs =>
      let dest_file := dest_folder ++ [name file] in
      if exists_ fs dest_file
      then (fs, log ++ [LogExists dest_file])
      else match shutil_copy fs file dest_file with
           | inl e => (fs, log ++ [LogCopyError file e])
           | inr fs => (fs, log ++ [LogCopied file dest_file])
           end
  end.

(** [FileOrganizer.read_folder]: the listing is taken once, then each path
    of it is handed to [copy_file]. *)
Definition read_folder (output_folder : path) (fs : filesystem)
    (folder : path) : filesystem * list event :=
  let files := rglob fs folder (str "*.*") in
  foldl (copy_file output_folder) (fs, []) files.

(** A source tree with a file [README] and a file [notes.txt], and an empty
    destination folder. *)
Definition tree_with_readme : filesystem :=
  list_to_map
    [([str "src"], Dir);
     ([str "src"; str "README"], File (str "read me"));
     ([str "src"; str "notes.txt"], File (str "to do"));
     ([str "out"], Dir)].

(** The same tree once [notes.txt] has been copied, with an older content. *)
Definition tree_with_copy : filesystem :=
  list_to_map
    [([str "src"], Dir);
     ([str "src"; str "notes.txt"], File (str "to do"));
     ([str "out"], Dir);
     ([str "out"; str "txt"], Dir);
     ([str "out"; str "txt"; str "notes.txt"], File (str "done"))].

(** A source tree without any destination folder. *)
Definition tree_without_output : filesystem :=
  list_to_map
    [([str "src"], Dir);
     ([str "src"; str "notes.txt"], File (str "to do"))].

(** A source tree that holds a folder with a dot in its name. *)
Definition tree_with_dotted_folder : filesystem :=
  list_to_map
    [([str "src"], Dir);
     ([str "src"; str "v1.0"], Dir);
     ([str "out"], Dir)].

(** A source tree in which no name has a dot. *)
Definition tree_without_dots : filesystem :=
  list_to_map
    [([str "src"], Dir);
     ([str "src"; str "README"], File (str "read me"));
     ([str "out"], Dir)].

End Task1.

(* ===================================================================== *)
(** * Properties *)
(* ===================================================================== *)

(** ** Normalizer: [remove_punctuation] *)

Section Normalizer.

Lemma delete_table_lookup (z : pystr) (table : gmap N (option N)) (c : N) :
  foldl (λ t c, <[c := None]> t) table z !! c =
  if decide (c ∈ z) then Some None else table !! c.
Proof.
  revert table. induction z as [|a z IH]; intros table.
  - case_decide as Hin; [by apply elem_of_nil in Hin | done].
  - cbn [foldl]. rewrite IH.
    case_decide as Hz; case_decide as Haz; try done.
    + exfalso. apply Haz, elem_of_cons. by right.
    + apply elem_of_cons in Haz as [->|?]; [|done]. apply lookup_insert_eq.
    + apply lookup_insert_ne. intros ->. apply Haz, elem_of_cons. by left.
Qed.

(** Translating through a table that only deletes is filtering. *)
Lemma translate_delete (z s : pystr) :
  translate (maketrans [] [] z) s = filter (λ c, c ∉ z) s.
Proof.
  unfold translate, maketrans. induction s as [|c s IH]; [done|].
  rewrite bind_cons, IH, delete_table_lookup. rewrite filter_cons.
  case_decide as Hz.
  - by rewrite decide_False by tauto.
  - rewrite decide_True by done.
    cbn [foldl zip zip_with fmap list_fmap list_to_map foldr].
    by rewrite lookup_empty.
Qed.

Lemma remove_punctuation_filter (text : pystr) :
  remove_punctuation text = filter (λ c, c ∉ punctuation) text.
Proof. apply translate_delete. Qed.

Lemma is_punctuation_false (c : N) : is_punctuation c = false ↔ c ∉ punctuation.
Proof. unfold is_punctuation. by rewrite bool_decide_eq_false. Qed.

Lemma letter_digit_space_not_punctuation (c : N) :
  is_letter_digit_space c = true → c ∉ punctuation.
Proof.
  unfold is_letter_digit_space, is_ascii_letter, is_digit, isspace, punctuation.
  rewrite !orb_true_iff, !andb_true_iff, !N.leb_le, !N.eqb_eq.
  intros H. rewrite !not_elem_of_cons. repeat split; try lia.
  apply not_elem_of_nil.
Qed.

(** C6: [remove_punctuation] keeps exactly the characters that are not in
    [string.punctuation], in place and order: no punctuation character is
    left, the letters, digits and whitespace of the text are all still there
    in the same order, and the empty text gives the empty text.  The function
    is total, it has no failing case. *)
Theorem remove_punctuation_spec (text : pystr) :
  remove_punctuation text = filter (λ c, is_punctuation c = false) text
  ∧ Forall (λ c, is_punctuation c = false) (remove_punctuation text)
  ∧ filter (λ c, is_letter_digit_space c = true) (remove_punctuation text)
    = filter (λ c, is_letter_digit_space c = true) text
  ∧ remove_punctuation [] = [].
Proof.
  assert (remove_punctuation text
          = filter (λ c, is_punctuation c = false) text) as Heq.
  { rewrite remove_punctuation_filter. apply list_filter_iff.
    intros c. by rewrite is_punctuation_false. }
  split; [done|]. rewrite Heq. split; [|split].
  - apply Forall_forall. intros c Hc. by apply list_elem_of_filter in Hc as [? _].
  - apply list_filter_filter_l. intros c Hc.
    by apply is_punctuation_false, letter_digit_space_not_punctuation.
  - done.
Qed.

(** C7: a second pass of [remove_punctuation] changes nothing, since no
    punctuation is left after the first. *)
Theorem remove_punctuation_idempotent (x : pystr) :
  remove_punctuation (remove_punctuation x) = remove_punctuation x.
Proof.
  rewrite !remove_punctuation_filter.
  by apply list_filter_filter_l.
Qed.

End Normalizer.

(** ** Tokenizer: [split] *)

Section Tokenizer.

Lemma split_from_spec (cur s : pystr) :
  no_space cur →
  Forall (λ w, w ≠ [] ∧ no_space w) (split_from cur s)
  ∧ concat (split_from cur s) = cur ++ filter (λ c, isspace c = false) s.
Proof.
  revert cur. induction s as [|c s IH]; intros cur Hcur; cbn [split_from].
  - destruct cur as [|a cur]; cbn.
    + by split.
    + split; [by apply Forall_singleton|]. by rewrite !app_nil_r.
  - rewrite filter_cons. destruct (isspace c) eqn:Hc.
    + rewrite decide_False by done.
      destruct (IH [] ltac:(constructor)) as [Htok Hcat].
      destruct cur as [|a cur]; [by split|]. split.
      * by constructor.
      * cbn [concat]. by rewrite Hcat.
    + rewrite decide_True by done.
      destruct (IH (cur ++ [c])) as [Htok Hcat].
      { apply Forall_app. split; [done|]. by constructor. }
      split; [done|]. by rewrite Hcat, <-app_assoc.
Qed.

(** No token is empty, no token holds whitespace, and the tokens hold the
    characters of the text that are not whitespace, in order. *)
Lemma split_spec (s : pystr) :
  Forall (λ w, w ≠ [] ∧ no_space w) (split s)
  ∧ concat (split s) = filter (λ c, isspace c = false) s.
Proof. apply (split_from_spec [] s). constructor. Qed.

End Tokenizer.

(** ** Reducer: [shuffle_and_reduce] *)

Section Reducer.

Lemma to_map_dict_set (d : Counter) (k : pystr) (v : Z) :
  to_map (dict_set d k v) = <[k := v]> (to_map d).
Proof.
  unfold to_map. induction d as [|[k' v'] d IH]; [done|].
  cbn [dict_set]. case_decide as Hk; cbn [list_to_map foldr uncurry].
  - subst k'. by rewrite insert_insert_eq.
  - change (foldr _ ∅ ?l) with (list_to_map (M := gmap (list N) Z) l).
    by rewrite IH, insert_insert_ne.
Qed.

Lemma dict_get_to_map (d : Counter) (k : pystr) :
  dict_get d k = to_map d !! k.
Proof.
  unfold to_map. induction d as [|[k' v'] d IH]; [done|].
  cbn [dict_get list_to_map foldr uncurry]. case_decide as Hk.
  - subst k'. by rewrite lookup_insert_eq.
  - by rewrite lookup_insert_ne.
Qed.

Lemma to_map_reduce_step (result : Counter) (p : pystr * Z) :
  to_map (reduce_step result p) = add_count (to_map result) p.
Proof.
  destruct p as [w c]. unfold reduce_step, add_count, counter_get.
  by rewrite to_map_dict_set, dict_get_to_map.
Qed.

Lemma to_map_foldl_reduce (mapped : list (pystr * Z)) (acc : Counter) :
  to_map (foldl reduce_step acc mapped) = foldl add_count (to_map acc) mapped.
Proof.
  revert acc. induction mapped as [|p l IH]; intros acc; [done|].
  cbn [foldl]. by rewrite IH, to_map_reduce_step.
Qed.

Lemma add_count_comm (m : gmap pystr Z) (p q : pystr * Z) :
  add_count (add_count m p) q = add_count (add_count m q) p.
Proof.
  destruct p as [w c], q as [w' c']. unfold add_count; cbn [fst snd].
  destruct (decide (w = w')) as [->|Hne].
  - rewrite !lookup_insert_eq, !insert_insert_eq. cbn. f_equal. lia.
  - rewrite !lookup_insert_ne by done. by apply insert_insert_ne.
Qed.

Lemma foldl_add_count_permutation (l l' : list (pystr * Z)) :
  l ≡ₚ l' → ∀ m, foldl add_count m l = foldl add_count m l'.
Proof.
  induction 1 as [|p l l' _ IH|p q l|l l' l'' _ IH1 _ IH2]; intros m; cbn [foldl].
  - done.
  - apply IH.
  - by rewrite add_count_comm.
  - by rewrite IH1.
Qed.

Lemma to_map_shuffle_and_reduce (mapped : list (pystr * Z)) :
  to_map (shuffle_and_reduce mapped) = foldl add_count ∅ mapped.
Proof. unfold shuffle_and_reduce. by rewrite to_map_foldl_reduce. Qed.

(** A table never holds a word twice. *)
Lemma keys_dict_set (d : Counter) (k : pystr) (v : Z) :
  (k ∈ keys d → keys (dict_set d k v) = keys d)
  ∧ (k ∉ keys d → keys (dict_set d k v) = keys d ++ [k]).
Proof.
  unfold keys. induction d as [|[k' v'] d [IHin IHout]]; cbn [dict_set].
  - split; [by intros ?%elem_of_nil | done].
  - rewrite fmap_cons, elem_of_cons. cbn [fst]. case_decide as Hk.
    + subst k'. split; [done|]. intros Hout. exfalso. apply Hout. by left.
    + rewrite fmap_cons. cbn [fst]. split.
      * intros [->|Hin]; [done|]. by rewrite IHin.
      * intros Hout. rewrite IHout; [done|]. intros Hin. apply Hout. by right.
Qed.

Lemma NoDup_keys_reduce_step (result : Counter) (p : pystr * Z) :
  NoDup (keys result) → NoDup (keys (reduce_step result p)).
Proof.
  destruct p as [w c]. unfold reduce_step. intros Hnd.
  destruct (keys_dict_set result w (counter_get result w + c)) as [Hin Hout].
  destruct (decide (w ∈ keys result)) as [Hw|Hw].
  - by rewrite Hin.
  - rewrite Hout by done. apply NoDup_app.
    split; [done|]. split; [|apply NoDup_singleton].
    intros k Hk ->%list_elem_of_singleton. done.
Qed.

Lemma NoDup_keys_shuffle_and_reduce (mapped : list (pystr * Z)) :
  NoDup (keys (shuffle_and_reduce mapped)).
Proof.
  unfold shuffle_and_reduce.
  assert (NoDup (keys ([] : list (list N * Z)))) as Hacc by constructor.
  revert Hacc. generalize ([] : list (list N * Z)).
  induction mapped as [|p l IH]; intros acc Hacc; [done|].
  cbn [foldl]. by apply IH, NoDup_keys_reduce_step.
Qed.

(** C1: reducing a permutation of the mapped pairs gives the same frequency
    table: the same words with the same counts, that is the same items up to
    the order in which the words were first met. *)
Theorem shuffle_and_reduce_permutation (mapped mapped' : list (pystr * Z)) :
  mapped ≡ₚ mapped' →
  to_map (shuffle_and_reduce mapped) = to_map (shuffle_and_reduce mapped')
  ∧ items (shuffle_and_reduce mapped) ≡ₚ items (shuffle_and_reduce mapped').
Proof.
  intros Hperm.
  assert (to_map (shuffle_and_reduce mapped)
          = to_map (shuffle_and_reduce mapped')) as Heq.
  { rewrite !to_map_shuffle_and_reduce.
    by apply foldl_add_count_permutation. }
  split; [done|].
  apply (list_to_map_inj (M := gmap (list N))); [..|done];
    apply NoDup_keys_shuffle_and_reduce.
Qed.

Lemma shuffle_and_reduce_permutation_witness :
  let mapped := [(str "a", 1); (str "b", 1); (str "a", 1)] in
  let mapped' := [(str "b", 1); (str "a", 1); (str "a", 1)] in
  to_map (shuffle_and_reduce mapped) = to_map (shuffle_and_reduce mapped')
  ∧ items (shuffle_and_reduce mapped) ≡ₚ items (shuffle_and_reduce mapped').
Proof.
  intros mapped mapped'. apply shuffle_and_reduce_permutation. apply perm_swap.
Defined.

(** The same for the tokens: any permutation of the token sequence is
    mapped and reduced to the same table. *)
Lemma reduce_map_permutation `{!StrLower} (tokens tokens' : list pystr) :
  tokens ≡ₚ tokens' →
  to_map (shuffle_and_reduce (map_function <$> tokens))
  = to_map (shuffle_and_reduce (map_function <$> tokens')).
Proof.
  intros Hperm. rewrite !to_map_shuffle_and_reduce.
  apply foldl_add_count_permutation. by apply fmap_Permutation.
Qed.

(** The insertion order of the table does follow the order of the pairs. *)
Example shuffle_and_reduce_insertion_order :
  shuffle_and_reduce [(str "a", 1); (str "b", 1)] = [(str "a", 1); (str "b", 1)]
  ∧ shuffle_and_reduce [(str "b", 1); (str "a", 1)] = [(str "b", 1); (str "a", 1)].
Proof. by vm_compute. Qed.

End Reducer.

(** ** Mapper: the thread pool of [executor.map] *)

Section ExecutorMap.
Context {A B : Type} (f : A → B).

Implicit Types (p : pool (A := A) (B := B)) (xs : list A).

Lemma pool_inv_submit_all (n : nat) xs : pool_inv f xs (submit_all n xs).
Proof.
  split; cbn [queue workers futures submit_all].
  - apply length_replicate.
  - intros i x [j [y [Heq Hy]]]%elem_of_lookup_imap. by simplify_eq.
  - intros w i x [Hw _]%lookup_replicate. done.
  - intros i y [Hy _]%lookup_replicate. done.
  - intros i [_ Hi]%lookup_replicate. left.
    apply lookup_lt_is_Some in Hi as [x Hx]. exists x.
    by apply (elem_of_lookup_imap_2 (λ i x, (i, x))).
Qed.

Lemma pool_inv_step xs p (w : nat) :
  pool_inv f xs p → pool_inv f xs (worker_step f p w).
Proof.
  intros Hinv. pose proof Hinv as [Hlen Hq Hw Hd Hp]. unfold worker_step.
  destruct (workers p !! w) as [[[i x]|]|] eqn:Hpw; [| |done].
  - (* worker [w] completes task [i] *)
    split; cbn [queue workers futures].
    + by rewrite length_insert.
    + done.
    + intros w' j y Hw'. apply list_lookup_insert_Some in Hw' as [[_ [? _]]|[_ ?]];
        [done | eauto].
    + intros j y Hj. apply list_lookup_insert_Some in Hj as [[-> [Hy _]]|[_ ?]];
        [|eauto]. simplify_eq. eauto.
    + intros j Hj. apply list_lookup_insert_Some in Hj as [[_ [? _]]|[Hne Hj]];
        [done|]. destruct (Hp j Hj) as [?|[w' [y Hw']]]; [by left|]. right.
      exists w', y. rewrite list_lookup_insert_ne; [done|].
      intros <-. by simplify_eq.
  - (* worker [w] is idle *)
    destruct (queue p) as [|[i x] q] eqn:Hqueue; [done|].
    split; cbn [queue workers futures].
    + done.
    + intros j y Hj. apply Hq. rewrite elem_of_cons. by right.
    + intros w' j y Hw'. apply list_lookup_insert_Some in Hw' as [[_ [Heq _]]|[_ ?]];
        [|eauto]. simplify_eq. apply Hq. rewrite elem_of_cons. by left.
    + done.
    + intros j Hj. destruct (Hp j Hj) as [[y Hy]|[w' [y Hw']]].
      * apply elem_of_cons in Hy as [Heq|Hy]; [|by eauto]. simplify_eq. right.
        eexists w, _. apply list_lookup_insert_eq. by eapply lookup_lt_Some.
      * right. exists w', y. rewrite list_lookup_insert_ne; [done|].
        intros <-. by simplify_eq.
Qed.

Lemma pool_inv_run xs (schedule : list nat) p :
  pool_inv f xs p → pool_inv f xs (run f p schedule).
Proof.
  revert p. induction schedule as [|w ws IH]; intros p Hp; [done|].
  apply IH. by apply pool_inv_step.
Qed.

(** Once the pool is idle, the futures hold the images, in order. *)
Lemma idle_results xs p :
  pool_inv f xs p → idle p → results p = Some (f <$> xs).
Proof.
  intros [Hlen Hq Hw Hd Hp] [Hqueue Hidle]. unfold results.
  apply mapM_Some, Forall2_same_length_lookup. split.
  - by rewrite length_fmap.
  - intros i o y Ho Hy. destruct o as [y'|]; cbn.
    + destruct (Hd i y' Ho) as [x [Hx ->]].
      rewrite list_lookup_fmap, Hx in Hy. by simplify_eq.
    + exfalso. destruct (Hp i Ho) as [[x Hx]|[w [x Hx]]].
      * rewrite Hqueue in Hx. by apply elem_of_nil in Hx.
      * rewrite Forall_lookup in Hidle. by specialize (Hidle w _ Hx).
Qed.

(** *** Progress: the shutdown does drain the pool *)

Lemma busy_insert (l : list (option (nat * A))) (w : nat) (r r' : option (nat * A)) :
  l !! w = Some r →
  (sum_list_with busy (<[w := r']> l) + busy r = sum_list_with busy l + busy r')%nat.
Proof.
  revert w. induction l as [|a l IH]; intros [|w] Hw; simplify_eq/=; [lia|].
  specialize (IH w Hw). lia.
Qed.

Lemma worker_step_workers_length p (w : nat) :
  length (workers (worker_step f p w)) = length (workers p).
Proof.
  unfold worker_step. destruct (workers p !! w) as [[[i x]|]|]; [| |done].
  - cbn. apply length_insert.
  - destruct (queue p); [done|]. cbn. apply length_insert.
Qed.

Lemma worker_step_futures_length p (w : nat) :
  length (futures (worker_step f p w)) = length (futures p).
Proof.
  unfold worker_step. destruct (workers p !! w) as [[[i x]|]|]; [| |done].
  - cbn. apply length_insert.
  - by destruct (queue p).
Qed.

(** A step either does nothing or takes away one unit of work. *)
Lemma worker_step_work p (w : nat) :
  worker_step f p w = p
  ∨ (work_left (worker_step f p w) < work_left p)%nat.
Proof.
  unfold worker_step, work_left.
  destruct (workers p !! w) as [[[i x]|]|] eqn:Hw; [| |by left].
  - right. cbn [queue workers].
    pose proof (busy_insert _ _ _ None Hw) as Hb. cbn in Hb. lia.
  - destruct (queue p) as [|t q]; [by left|]. right. cbn [queue workers length].
    pose proof (busy_insert _ _ _ (Some t) Hw) as Hb. cbn in Hb. lia.
Qed.

Lemma can_step_work p (w : nat) :
  can_step p w → (work_left (worker_step f p w) < work_left p)%nat.
Proof.
  intros Hcan. destruct (worker_step_work p w) as [Heq|?]; [|done].
  exfalso. revert Heq. unfold worker_step.
  destruct Hcan as [[[i x] Hw]|[Hw Hq]]; rewrite Hw.
  - intros Heq. apply (f_equal workers) in Heq. cbn in Heq.
    apply (f_equal (λ l, l !! w)) in Heq.
    rewrite list_lookup_insert_eq, Hw in Heq by (by eapply lookup_lt_Some).
    done.
  - destruct (queue p) as [|t q] eqn:Hqueue; [done|].
    intros Heq. apply (f_equal queue) in Heq. cbn in Heq.
    rewrite Hqueue in Heq. apply (f_equal length) in Heq. cbn in Heq. lia.
Qed.

Lemma run_work_le p (ws : list nat) :
  (work_left (run f p ws) ≤ work_left p)%nat.
Proof.
  revert p. induction ws as [|w ws IH]; intros p; [done|].
  cbn [run foldl]. etrans; [apply IH|].
  destruct (worker_step_work p w) as [->|?]; lia.
Qed.

Lemma run_workers_length p (ws : list nat) :
  length (workers (run f p ws)) = length (workers p).
Proof.
  revert p. induction ws as [|w ws IH]; intros p; [done|].
  cbn [run foldl]. etrans; [apply IH|]. apply worker_step_workers_length.
Qed.

Lemma run_futures_length p (ws : list nat) :
  length (futures (run f p ws)) = length (futures p).
Proof.
  revert p. induction ws as [|w ws IH]; intros p; [done|].
  cbn [run foldl]. etrans; [apply IH|]. apply worker_step_futures_length.
Qed.

(** Scheduling a worker that has something to do, among others, makes the
    work decrease. *)
Lemma run_can_step_work p (ws : list nat) (w : nat) :
  w ∈ ws → can_step p w → (work_left (run f p ws) < work_left p)%nat.
Proof.
  revert p. induction ws as [|w' ws IH]; intros p Hin Hcan.
  { by apply elem_of_nil in Hin. }
  cbn [run foldl]. pose proof (run_work_le (worker_step f p w') ws) as Hle.
  destruct (worker_step_work p w') as [Heq|Hlt]; [|unfold run in *; lia].
  apply elem_of_cons in Hin as [->|Hin].
  - apply can_step_work in Hcan. unfold run in *. lia.
  - rewrite Heq. by apply IH.
Qed.

Lemma sum_busy_pos (l : list (option (nat * A))) :
  (0 < sum_list_with busy l)%nat → ∃ w t, l !! w = Some (Some t).
Proof.
  induction l as [|[t|] l IH]; cbn; intros Hpos; [lia| |].
  - by exists 0%nat, t.
  - destruct (IH Hpos) as [w [t Hw]]. by exists (S w), t.
Qed.

Lemma work_left_can_step p :
  (0 < length (workers p))%nat → (0 < work_left p)%nat →
  ∃ w, (w < length (workers p))%nat ∧ can_step p w.
Proof.
  intros Hn Hwork. destruct (queue p) as [|t q] eqn:Hqueue.
  - unfold work_left in Hwork. rewrite Hqueue in Hwork. cbn in Hwork.
    destruct (sum_busy_pos (workers p)) as [w [t Hw]]; [lia|].
    exists w. split; [by eapply lookup_lt_Some|]. left. by exists t.
  - exists 0%nat. split; [done|].
    apply lookup_lt_is_Some in Hn as [[t'|] Hw].
    + left. by exists t'.
    + right. split; [done|]. by rewrite Hqueue.
Qed.

Lemma sweep_work p :
  (0 < length (workers p))%nat → (0 < work_left p)%nat →
  (work_left (sweep f p) < work_left p)%nat.
Proof.
  intros Hn Hwork. destruct (work_left_can_step p Hn Hwork) as [w [Hw Hcan]].
  apply (run_can_step_work _ _ w); [|done].
  apply elem_of_seq. lia.
Qed.

Lemma iter_sweep_spec xs (k : nat) p :
  pool_inv f xs p → (0 < length (workers p))%nat →
  pool_inv f xs (Nat.iter k (sweep f) p)
  ∧ length (workers (Nat.iter k (sweep f) p)) = length (workers p)
  ∧ (work_left (Nat.iter k (sweep f) p) ≤ work_left p - k)%nat.
Proof.
  intros Hinv Hn. induction k as [|k (IHinv & IHlen & IHwork)].
  { cbn. split; [done|]. split; [done|lia]. }
  cbn [Nat.iter nat_rect]. fold (Nat.iter k (sweep f) p).
  set (q := Nat.iter k (sweep f) p) in *. split; [|split].
  - by apply pool_inv_run.
  - unfold sweep. by rewrite run_workers_length.
  - destruct (decide (work_left q = 0)%nat) as [Hz|Hnz].
    + pose proof (run_work_le q (seq 0 (length (workers q)))).
      unfold sweep. lia.
    + pose proof (sweep_work q). lia.
Qed.

Lemma work_left_0_idle p : work_left p = 0%nat → idle p.
Proof.
  unfold work_left, idle. intros Hz. split.
  - destruct (queue p); [done|]. cbn in Hz. lia.
  - apply Forall_forall. intros [t|] Hin; [|done].
    apply (sum_list_with_in _ busy) in Hin. cbn in Hin. lia.
Qed.

(** Whatever the number of workers (at least one) and whatever the
    interleaving, [executor.map] gives the images in the order of the
    arguments: the results of a sequential [map]. *)
Lemma executor_map_sequential (max_workers : nat) (schedule : list nat) xs :
  (0 < max_workers)%nat →
  executor_map f max_workers schedule xs = Some (f <$> xs).
Proof.
  intros Hn. unfold executor_map, shutdown_wait.
  set (p := run f (submit_all max_workers xs) schedule).
  assert (pool_inv f xs p) as Hinv
    by apply pool_inv_run, pool_inv_submit_all.
  assert (length (workers p) = max_workers) as Hworkers.
  { unfold p. rewrite run_workers_length. apply length_replicate. }
  assert (work_left p ≤ 2 * length (futures p))%nat as Hwork.
  { unfold p. rewrite run_futures_length. etrans; [apply run_work_le|].
    unfold work_left. cbn [submit_all queue workers futures].
    rewrite length_imap, length_replicate.
    assert (∀ n, sum_list_with busy (replicate n (@None (nat * A))) = 0%nat)
      as -> by (intros n; induction n; [done | cbn; done]).
    lia. }
  destruct (iter_sweep_spec xs (2 * length (futures p)) p) as (Hinv' & _ & Hz);
    [done | lia |].
  apply idle_results; [done|]. apply work_left_0_idle. lia.
Qed.

End ExecutorMap.

(** ** The pipeline: [process_text] *)

Section Pipeline.
Context `{!StrLower}.

(** C3: with any number of workers and any interleaving, mapping in the pool
    and reducing gives the table of the sequential map-then-reduce; in
    particular the same table as with a single worker. *)
Theorem parallel_map_reduce_sequential (tokens : list pystr)
    (max_workers : nat) (schedule schedule1 : list nat) :
  (0 < max_workers)%nat →
  shuffle_and_reduce <$> executor_map map_function max_workers schedule tokens
  = shuffle_and_reduce <$> executor_map map_function 1 schedule1 tokens
  ∧ shuffle_and_reduce <$> executor_map map_function max_workers schedule tokens
    = Some (shuffle_and_reduce (map_function <$> tokens)).
Proof.
  intros Hn. by rewrite !executor_map_sequential by lia.
Qed.

Lemma default_max_workers_pos (cpus : nat) : (0 < default_max_workers cpus)%nat.
Proof. unfold default_max_workers. destruct cpus; lia. Qed.

(** [process_text] always returns, and returns the sequential result. *)
Lemma process_text_sequential (s : scheduling) (text : pystr) :
  process_text s text
  = Some (shuffle_and_reduce (map_function <$> split (remove_punctuation text))).
Proof.
  unfold process_text.
  by rewrite executor_map_sequential by apply default_max_workers_pos.
Qed.

Lemma total_reduce_step (result : Counter) (p : pystr * Z) :
  total (reduce_step result p) = total result + p.2.
Proof.
  destruct p as [w k]. unfold reduce_step, counter_get, total, values.
  induction result as [|[w' v'] c IH]; cbn [dict_get dict_set].
  - cbn. lia.
  - case_decide as Hw; cbn in *; lia.
Qed.

Lemma total_foldl_reduce (mapped : list (pystr * Z)) (acc : Counter) :
  total (foldl reduce_step acc mapped) = total acc + foldr Z.add 0 mapped.*2.
Proof.
  revert acc. induction mapped as [|p l IH]; intros acc; cbn [foldl].
  - cbn. lia.
  - rewrite IH, total_reduce_step. cbn. lia.
Qed.

(** The reducer conserves the counts. *)
Lemma total_shuffle_and_reduce (mapped : list (pystr * Z)) :
  total (shuffle_and_reduce mapped) = foldr Z.add 0 mapped.*2.
Proof. unfold shuffle_and_reduce. by rewrite total_foldl_reduce. Qed.

Lemma sum_mapped_counts (tokens : list pystr) :
  foldr Z.add 0 (map_function <$> tokens).*2 = Z.of_nat (length tokens).
Proof. induction tokens as [|w l IH]; [done|]. cbn in *. lia. Qed.

(** C2: [process_text] returns a table whose counts add up to the number of
    tokens of the normalized text. *)
Theorem process_text_conservation (s : scheduling) (text : pystr) :
  ∃ word_counts,
    process_text s text = Some word_counts
    ∧ total word_counts = Z.of_nat (length (split (remove_punctuation text))).
Proof.
  eexists. split; [apply process_text_sequential|].
  by rewrite total_shuffle_and_reduce, sum_mapped_counts.
Qed.

(** C5: the ranked sequence of the empty text is empty, and is computed
    without error. *)
Theorem process_empty_text (s : scheduling) : process s (str "") 10 = Some [].
Proof. unfold process. by rewrite process_text_sequential. Qed.

End Pipeline.

Lemma parallel_map_reduce_sequential_witness :
  (0 < 3)%nat
  ∧ (shuffle_and_reduce <$>
       executor_map (map_function (str_lower := ascii_lower)) 3 [2; 0; 2; 1; 0]%nat
                    [str "The"; str "cat"; str "the"]
     = shuffle_and_reduce <$>
       executor_map (map_function (str_lower := ascii_lower)) 1 [0; 0]%nat
                    [str "The"; str "cat"; str "the"]
     ∧ shuffle_and_reduce <$>
       executor_map (map_function (str_lower := ascii_lower)) 3 [2; 0; 2; 1; 0]%nat
                    [str "The"; str "cat"; str "the"]
       = Some (shuffle_and_reduce
                 (map_function (str_lower := ascii_lower) <$>
                    [str "The"; str "cat"; str "the"]))).
Proof.
  split; [lia|]. apply parallel_map_reduce_sequential. lia.
Defined.

(** ** Ranker: [most_common] *)

Section Ranker.
Context {A : Type}.

Lemma insert_desc_permutation (x : A * Z) (l : list (A * Z)) :
  insert_desc x l ≡ₚ x :: l.
Proof.
  induction l as [|y l IH]; [done|]. cbn [insert_desc].
  destruct (y.2 <=? x.2); [done|]. by rewrite IH, Permutation_swap.
Qed.

Lemma sorted_desc_permutation (l : list (A * Z)) : sorted_desc l ≡ₚ l.
Proof.
  induction l as [|x l IH]; [done|]. cbn [sorted_desc foldr].
  fold (sorted_desc l). by rewrite insert_desc_permutation, IH.
Qed.

Lemma insert_desc_sorted (x : A * Z) (l : list (A * Z)) :
  StronglySorted count_ge l → StronglySorted count_ge (insert_desc x l).
Proof.
  induction 1 as [|y l Hl IH Hy]; cbn [insert_desc].
  { repeat constructor. }
  destruct (Z.leb_spec y.2 x.2) as [Hle|Hlt].
  - constructor; [by constructor|]. constructor; [done|].
    eapply Forall_impl; [exact Hy|]. unfold count_ge. intros z Hz. lia.
  - constructor; [done|]. rewrite insert_desc_permutation.
    constructor; [|done]. unfold count_ge. lia.
Qed.

Lemma sorted_desc_sorted (l : list (A * Z)) : StronglySorted count_ge (sorted_desc l).
Proof.
  induction l as [|x l IH]; [constructor|]. by apply insert_desc_sorted.
Qed.

Lemma nlargest_spec (n : Z) (l : list (A * Z)) :
  (0 < n →
     length (nlargest n l) = Nat.min (Z.to_nat n) (length l)
     ∧ StronglySorted count_ge (nlargest n l)
     ∧ ∃ rest, nlargest n l ++ rest ≡ₚ l
               ∧ StronglySorted count_ge (nlargest n l ++ rest))
  ∧ (n ≤ 0 → nlargest n l = []).
Proof.
  unfold nlargest. split; intros Hn.
  - rewrite (proj2 (Z.leb_gt n 0)) by done. split; [|split].
    + by rewrite length_take, sorted_desc_permutation.
    + pose proof (sorted_desc_sorted l) as Hs.
      rewrite <-(take_drop (Z.to_nat n) (sorted_desc l)) in Hs.
      by apply StronglySorted_app_1_l in Hs.
    + exists (drop (Z.to_nat n) (sorted_desc l)). rewrite take_drop.
      split; [apply sorted_desc_permutation | apply sorted_desc_sorted].
  - by rewrite (proj2 (Z.leb_le n 0)).
Qed.

End Ranker.

(** C4: for a positive [n] the ranking has [min(n, |freq|)] entries, sorted
    by decreasing count, which are the first ones of a decreasing
    arrangement of all the entries of the table; for [n <= 0] it is empty. *)
Theorem most_common_spec (freq : Counter) (n : Z) :
  (0 < n →
     length (most_common freq n) = Nat.min (Z.to_nat n) (len freq)
     ∧ StronglySorted count_ge (most_common freq n)
     ∧ ∃ rest, most_common freq n ++ rest ≡ₚ items freq
               ∧ StronglySorted count_ge (most_common freq n ++ rest))
  ∧ (n ≤ 0 → most_common freq n = []).
Proof. apply nlargest_spec. Qed.

Lemma most_common_spec_witness :
  let freq := [(str "c", 1); (str "a", 3); (str "b", 2)] in
  (0 < 2
   ∧ length (most_common freq 2) = Nat.min (Z.to_nat 2) (len freq)
   ∧ StronglySorted count_ge (most_common freq 2)
   ∧ ∃ rest, most_common freq 2 ++ rest ≡ₚ items freq
             ∧ StronglySorted count_ge (most_common freq 2 ++ rest))
  ∧ (-1 ≤ 0 ∧ most_common freq (-1) = []).
Proof.
  intros freq. split.
  - split; [lia|]. apply (proj1 (most_common_spec freq 2)). lia.
  - split; [lia|]. apply (proj2 (most_common_spec freq (-1))). lia.
Defined.

(** Ties keep the insertion order of the table. *)
Example most_common_ties :
  most_common [(str "the", 2); (str "cat", 2); (str "sat", 2)] 2
  = [(str "the", 2); (str "cat", 2)].
Proof. by vm_compute. Qed.

(** ** Visualizer *)

Section Visualizer.

(** [visualize] fails exactly when there is nothing to show. *)
Lemma visualize_raises_iff (word_counts : Counter) (top_n : Z) :
  visualize word_counts top_n = inl (ValueError 2 0)
  ↔ most_common word_counts top_n = [].
Proof.
  unfold visualize. destruct (most_common word_counts top_n) as [|r rows]; [done|].
  cbn. split; intros; simplify_eq.
Qed.

(** C10: on an empty table [visualize] does not return a figure: unpacking
    the two columns of an empty ranking raises [ValueError] (2 values
    expected, 0 found), whatever [top_n] is. *)
Theorem visualize_empty_raises (top_n : Z) :
  visualize [] top_n = inl (ValueError 2 0).
Proof.
  apply visualize_raises_iff. unfold most_common, nlargest, items.
  destruct (top_n <=? 0); [done|]. cbn. by rewrite take_nil.
Qed.

End Visualizer.

(** ** The run: fetch, then process and visualize *)

Section Run.
Context `{!StrLower}.

(** [fetch] gives no text exactly when the server cannot be reached or
    answers with a 4xx or 5xx status. *)
Lemma fetch_None_iff (network : pystr → response) (url : pystr) :
  (fetch network url).2 = None
  ↔ network url = Unreachable
    ∨ ∃ status_code text,
        network url = Response status_code text ∧ 400 ≤ status_code < 600.
Proof.
  unfold fetch, raise_for_status. destruct (network url) as [|status text].
  - cbn. naive_solver.
  - destruct (Z.leb_spec 400 status), (Z.ltb_spec status 600); cbn;
      split; try done; try (intros [?|(? & ? & ? & ?)]; simplify_eq; lia).
    intros _. right. by exists status, text.
Qed.

(** C8, amended: when the server cannot be reached or answers with a 4xx or
    5xx status, [fetch] returns no text, and the run consists of the two
    error logs: [process_text] and [visualize] are not called. *)
Theorem fetch_failure_aborts (network : pystr → response) (s : scheduling)
    (url : pystr) :
  (network url = Unreachable
   ∨ ∃ status_code text,
       network url = Response status_code text ∧ 400 ≤ status_code < 600) →
  (fetch network url).2 = None
  ∧ (∃ e, run_url network s url = [LogFetchError url e; LogFailedToProceed])
  ∧ existsb invokes_pipeline (run_url network s url) = false
  ∧ existsb is_error_log (run_url network s url) = true.
Proof.
  intros Hfail. pose proof (proj2 (fetch_None_iff network url) Hfail) as Hnone.
  split; [done|]. unfold run_url. revert Hnone. unfold fetch.
  destruct (network url) as [|status text].
  - intros _. cbn. eauto.
  - destruct (raise_for_status status) as [e|]; [|done].
    intros _. cbn. eauto.
Qed.

End Run.

Lemma fetch_failure_aborts_witness :
  let network := λ _ : list N, Response 404 (str "Not Found") in
  let s := Scheduling 4 [] in
  (fetch network URL).2 = None
  ∧ (∃ e, run_url (str_lower := ascii_lower) network s URL
          = [LogFetchError URL e; LogFailedToProceed])
  ∧ existsb invokes_pipeline
      (run_url (str_lower := ascii_lower) network s URL) = false
  ∧ existsb is_error_log
      (run_url (str_lower := ascii_lower) network s URL) = true.
Proof.
  intros network s. apply fetch_failure_aborts.
  right. exists 404, (str "Not Found"). split; [reflexivity | lia].
Defined.

(** An answer with status 300 is not a 2xx answer, [raise_for_status] lets it
    through, and its text is processed and visualized. *)
Example run_status_300 :
  run_url (str_lower := ascii_lower)
          (λ _, Response 300 (str "a b")) (Scheduling 4 []) URL
  = [CallProcessText (str "a b");
     CallVisualize [(str "a", 1); (str "b", 1)] 10].
Proof. by vm_compute. Qed.

(** C8 as stated does not hold: the answer 300 with the text [a b] has a
    status outside 2xx, yet [fetch] returns its text and the run calls
    [process_text] and [visualize]. *)
Lemma non_2xx_status_runs_pipeline :
  let network := λ _ : list N, Response 300 (str "a b") in
  let s := Scheduling 4 [] in
  ¬ (200 ≤ 300 < 300)
  ∧ (fetch network URL).2 = Some (str "a b")
  ∧ existsb invokes_pipeline
      (run_url (str_lower := ascii_lower) network s URL) = true.
Proof.
  intros network s. split; [lia|]. split; [reflexivity|].
  unfold network, s. by rewrite run_status_300.
Qed.

(** ** The file organizer *)

Section FileOrganizer.
Import Task1.

Lemma fnmatch_star (s : pystr) : fnmatch [42%N] s = true.
Proof. induction s as [|x s IH]; [done|]. cbn in *. by rewrite IH. Qed.

(** The pattern of [read_folder] matches the names that contain a dot. *)
Lemma fnmatch_star_dot_star (s : pystr) :
  fnmatch (str "*.*") s = true ↔ 46%N ∈ s.
Proof.
  change (str "*.*") with [42; 46; 42]%N.
  induction s as [|x s IH].
  - cbn. split; [done|]. by intros ?%elem_of_nil.
  - rewrite elem_of_cons, <-IH. clear IH.
    change (fnmatch [42; 46; 42]%N (x :: s))
      with (fnmatch [46; 42]%N (x :: s) || fnmatch [42; 46; 42]%N s).
    change (fnmatch [46; 42]%N (x :: s))
      with ((x =? 46)%N && fnmatch [42%N] s).
    rewrite fnmatch_star, andb_true_r, orb_true_iff, N.eqb_eq.
    split; (intros [->|?]; [by left | by right]).
Qed.

(** Only paths whose name contains a dot are listed. *)
Lemma rglob_star_dot_star (fs : filesystem) (folder p : path) :
  p ∈ rglob fs folder (str "*.*") → 46%N ∈ name p ∧ is_Some (fs !! p).
Proof.
  unfold rglob. intros [(_ & _ & Hmatch) Hin]%list_elem_of_filter.
  split; [by apply fnmatch_star_dot_star|].
  apply list_elem_of_fmap in Hin as [[p' n] [-> Hin]].
  apply elem_of_map_to_list in Hin. by exists n.
Qed.

(** A tree in which no name has a dot is left alone: nothing is copied and
    nothing is logged. *)
Lemma read_folder_no_dot (output_folder folder : path)
    (fs : filesystem) :
  (∀ p, is_Some (fs !! p) → 46%N ∉ name p) →
  read_folder output_folder fs folder = (fs, []).
Proof.
  intros Hnodot. unfold read_folder.
  destruct (rglob fs folder (str "*.*")) as [|p l] eqn:Hl; [done|].
  exfalso. destruct (rglob_star_dot_star fs folder p) as [Hdot Hp].
  { rewrite Hl, elem_of_cons. by left. }
  by apply (Hnodot p).
Qed.

Lemma stat_insert_ne (fs : filesystem) (p q : path)
    (n : node) :
  p ≠ q → stat (<[p := n]> fs) q = stat fs q.
Proof. intros Hne. destruct q; [done|]. by apply lookup_insert_ne. Qed.

Lemma stat_insert_eq (fs : filesystem) (p : path)
    (n : node) :
  p ≠ [] → stat (<[p := n]> fs) p = Some n.
Proof. intros Hne. destruct p; [done|]. apply lookup_insert_eq. Qed.

Lemma snoc_ne (l : path) (x : pystr) : l ≠ l ++ [x].
Proof. intros Heq. apply (f_equal length) in Heq. rewrite length_app in Heq. cbn in Heq. lia. Qed.

Lemma parent_snoc (l : path) (x : pystr) : parent (l ++ [x]) = l.
Proof. apply removelast_last. Qed.

(** A file handed to [copy_file] is copied to the folder of its extension,
    which is created when it is missing, provided nothing is in the way. *)
Lemma copy_file_copies (output_folder file : path)
    (fs : filesystem) (log : list event) (content : pystr) :
  stat fs file = Some (File content) →
  (stat fs (dest_folder_of output_folder file) = Some Dir
   ∨ stat fs (dest_folder_of output_folder file) = None
     ∧ stat fs (parent (dest_folder_of output_folder file)) = Some Dir) →
  stat fs (dest_file_of output_folder file) = None →
  ∃ fs',
    copy_file output_folder (fs, log) file
    = (fs', log ++ [LogCopied file (dest_file_of output_folder file)])
    ∧ stat fs' (dest_file_of output_folder file) = Some (File content)
    ∧ stat fs' (dest_folder_of output_folder file) = Some Dir
    ∧ stat fs' file = Some (File content).
Proof.
  unfold dest_file_of, dest_folder_of. intros Hfile Hfolder Hdest.
  set (d := joinpath output_folder (drop 1 (suffix file))) in *.
  assert (∃ fs1, mkdir_exist_ok fs d = inr fs1
                 ∧ stat fs1 d = Some Dir
                 ∧ stat fs1 file = Some (File content)
                 ∧ stat fs1 (d ++ [name file]) = None) as (fs1 & Hmk & Hd & Hf & Hn).
  { unfold mkdir_exist_ok. destruct Hfolder as [Hdir|[Hnone Hparent]].
    - exists fs. by rewrite Hdir.
    - exists (<[d := Dir]> fs). rewrite Hnone, Hparent.
      split; [done|]. split; [|split].
      + apply stat_insert_eq. intros ->. by cbn in Hnone.
      + rewrite stat_insert_ne; [done|]. intros ->. congruence.
      + rewrite stat_insert_ne; [done|]. apply snoc_ne. }
  exists (<[d ++ [name file] := File content]> fs1).
  unfold copy_file. fold d. rewrite Hmk. unfold exists_. rewrite Hn.
  rewrite bool_decide_eq_false_2 by (by intros [? ?]).
  unfold shutil_copy. rewrite Hf, Hn, parent_snoc, Hd, Hn.
  split; [done|]. split; [|split].
  - apply stat_insert_eq. by destruct d.
  - rewrite stat_insert_ne; [done|]. intros Heq. by apply (snoc_ne d (name file)).
  - rewrite stat_insert_ne; [done|]. intros Heq. rewrite Heq in Hn. congruence.
Qed.

(** When the destination exists already, the copy is skipped with a warning
    and the file system is left as it is. *)
Lemma copy_file_skips (output_folder file : path)
    (fs : filesystem) (log : list event) :
  stat fs (dest_folder_of output_folder file) = Some Dir →
  is_Some (stat fs (dest_file_of output_folder file)) →
  copy_file output_folder (fs, log) file
  = (fs, log ++ [LogExists (dest_file_of output_folder file)]).
Proof.
  unfold dest_file_of, dest_folder_of, copy_file, mkdir_exist_ok, exists_.
  intros -> Hdest. by rewrite bool_decide_eq_true_2.
Qed.

(** C9 fails on the code: [notes.txt] is copied to [out/txt/notes.txt], but
    [README], whose name has no dot, is not listed by [rglob("*.*")],
    never reaches [copy_file] and is copied nowhere. *)
Theorem read_folder_misses_file_without_dot :
  stat tree_with_readme [str "src"; str "README"] = Some (File (str "read me"))
  ∧ rglob tree_with_readme [str "src"] (str "*.*") = [[str "src"; str "notes.txt"]]
  ∧ read_folder [str "out"] tree_with_readme [str "src"]
    = (<[[str "out"; str "txt"; str "notes.txt"] := File (str "to do")]>
         (<[[str "out"; str "txt"] := Dir]> tree_with_readme),
       [LogCopied [str "src"; str "notes.txt"]
                  [str "out"; str "txt"; str "notes.txt"]])
  ∧ stat (read_folder [str "out"] tree_with_readme [str "src"]).1
         (dest_file_of [str "out"] [str "src"; str "README"]) = None.
Proof. by vm_compute. Qed.

End FileOrganizer.

(** ** The examples of the specification, with ASCII lowercasing *)

Section Examples.

Example normalize_example :
  remove_punctuation (str "The cat sat. The CAT sat!")
  = str "The cat sat The CAT sat".
Proof. by vm_compute. Qed.

Example tokenize_example :
  split (str "The cat sat The CAT sat")
  = [str "The"; str "cat"; str "sat"; str "The"; str "CAT"; str "sat"].
Proof. by vm_compute. Qed.

Example process_text_example :
  process_text (str_lower := ascii_lower) (Scheduling 4 [3; 0; 1; 0; 7; 2]%nat)
               (str "The cat sat. The CAT sat!")
  = Some [(str "the", 2); (str "cat", 2); (str "sat", 2)].
Proof. by vm_compute. Qed.

Example process_example :
  process (str_lower := ascii_lower) (Scheduling 4 [1; 1; 0]%nat)
          (str "a a a b b c") 2
  = Some [(str "a", 3); (str "b", 2)].
Proof. by vm_compute. Qed.

Example rank_zero_example :
  most_common [(str "a", 3); (str "b", 2)] 0 = [].
Proof. by vm_compute. Qed.

Example visualize_example :
  visualize [(str "a", 3); (str "b", 2); (str "c", 1)] 2
  = inr (Figure (Counts [3; 2]) (Words [str "a"; str "b"])).
Proof. by vm_compute. Qed.

(** An underscore belongs to [string.punctuation] and is removed. *)
Example normalize_underscore :
  remove_punctuation (str "snake_case") = str "snakecase".
Proof. by vm_compute. Qed.

(** The paths of [task_1.py]. *)
Example suffix_examples :
  Task1.suffix [str "src"; str "a.tar.gz"] = str ".gz"
  ∧ Task1.suffix [str "src"; str ".bashrc"] = str ""
  ∧ Task1.suffix [str "src"; str "README"] = str "".
Proof. by vm_compute. Qed.

End Examples.

(* ===================================================================== *)
(** * Further properties of the code *)
(* ===================================================================== *)

(** ** The normalizer and the reducer *)

Section MoreReducer.

Lemma filter_all {A : Type} (P : A → Prop) `{!∀ x, Decision (P x)} (l : list A) :
  Forall P l → filter P l = l.
Proof.
  induction 1 as [|x l Hx _ IH]; [done|].
  by rewrite filter_cons_True, IH by done.
Qed.

(** [remove_punctuation] works character by character: it distributes over
    concatenation. *)
Theorem remove_punctuation_app (a b : pystr) :
  remove_punctuation (a ++ b) = remove_punctuation a ++ remove_punctuation b.
Proof. rewrite !remove_punctuation_filter. apply filter_app. Qed.

(** A text is left unchanged exactly when it holds no punctuation. *)
Theorem remove_punctuation_fixpoint (text : pystr) :
  remove_punctuation text = text
  ↔ Forall (λ c, is_punctuation c = false) text.
Proof.
  rewrite remove_punctuation_filter. split.
  - intros Heq. rewrite <-Heq. apply Forall_forall. intros c Hc.
    apply list_elem_of_filter in Hc as [Hc _]. by apply is_punctuation_false.
  - induction 1 as [|c l Hc _ IH]; [done|].
    rewrite filter_cons_True by (by apply is_punctuation_false).
    by rewrite IH.
Qed.

Lemma counter_get_to_map (c : Counter) (w : pystr) :
  counter_get c w = default 0 (to_map c !! w).
Proof. unfold counter_get. by rewrite dict_get_to_map. Qed.

Lemma count_word_cons (w : pystr) (p : pystr * Z) (l : list (pystr * Z)) :
  count_word w (p :: l)
  = (if decide (p.1 = w) then p.2 else 0) + count_word w l.
Proof.
  unfold count_word. rewrite filter_cons.
  case_decide as Hp; [done | lia].
Qed.

Lemma counter_get_reduce_step (result : Counter) (p : pystr * Z) (w : pystr) :
  counter_get (reduce_step result p) w
  = counter_get result w + (if decide (p.1 = w) then p.2 else 0).
Proof.
  rewrite !counter_get_to_map, to_map_reduce_step. unfold add_count.
  case_decide as Hp.
  - subst w. by rewrite lookup_insert_eq.
  - rewrite lookup_insert_ne by done. lia.
Qed.

Lemma counter_get_foldl_reduce (mapped : list (pystr * Z)) (acc : Counter)
    (w : pystr) :
  counter_get (foldl reduce_step acc mapped) w
  = counter_get acc w + count_word w mapped.
Proof.
  revert acc. induction mapped as [|p l IH]; intros acc; cbn [foldl].
  - unfold count_word. cbn. lia.
  - rewrite IH, counter_get_reduce_step, count_word_cons. lia.
Qed.

(** The count of a word in the reduced table is the sum of the counts the
    mapped pairs give to that word; a word no pair mentions counts zero. *)
Theorem shuffle_and_reduce_counts (mapped : list (pystr * Z)) (w : pystr) :
  counter_get (shuffle_and_reduce mapped) w = count_word w mapped.
Proof.
  unfold shuffle_and_reduce. rewrite counter_get_foldl_reduce.
  unfold counter_get. cbn. lia.
Qed.

(** Reducing two batches one after the other adds up, word by word, what
    reducing each batch alone gives. *)
Theorem shuffle_and_reduce_batches (batch1 batch2 : list (pystr * Z))
    (w : pystr) :
  counter_get (shuffle_and_reduce (batch1 ++ batch2)) w
  = counter_get (shuffle_and_reduce batch1) w
    + counter_get (shuffle_and_reduce batch2) w.
Proof.
  unfold shuffle_and_reduce. rewrite foldl_app.
  rewrite (counter_get_foldl_reduce batch2 (foldl _ _ batch1)).
  rewrite (counter_get_foldl_reduce batch2 []).
  unfold counter_get at 3. cbn. lia.
Qed.

Lemma keys_foldl_reduce (mapped : list (pystr * Z)) (acc : Counter) :
  keys (foldl reduce_step acc mapped)
  = keys acc ++ filter (λ w, w ∉ keys acc) (first_occurrences mapped.*1).
Proof.
  revert acc. induction mapped as [|[w c] l IH]; intros acc.
  { cbn. by rewrite app_nil_r. }
  cbn [foldl fmap list_fmap fst first_occurrences]. rewrite IH.
  unfold reduce_step.
  destruct (keys_dict_set acc w (counter_get acc w + c)) as [Hin Hout].
  rewrite filter_cons, list_filter_filter.
  destruct (decide (w ∈ keys acc)) as [Hw|Hw].
  - rewrite Hin by done. rewrite decide_False by tauto.
    f_equal. apply list_filter_iff. intros x. split; [|tauto].
    intros Hx. split; [done|]. by intros ->.
  - rewrite Hout by done. rewrite decide_True by done.
    rewrite <-app_assoc. cbn [app]. do 2 f_equal.
    apply list_filter_iff. intros x.
    rewrite elem_of_app, list_elem_of_singleton. tauto.
Qed.

(** The table lists every word of the mapped pairs once, in the order in
    which the words first occur. *)
Theorem shuffle_and_reduce_keys (mapped : list (pystr * Z)) :
  keys (shuffle_and_reduce mapped) = first_occurrences mapped.*1
  ∧ NoDup (keys (shuffle_and_reduce mapped)).
Proof.
  split; [|apply NoDup_keys_shuffle_and_reduce].
  unfold shuffle_and_reduce. rewrite keys_foldl_reduce. cbn [keys fmap list_fmap app].
  apply filter_all, Forall_forall. intros w _. apply not_elem_of_nil.
Qed.

End MoreReducer.

(** ** The table of [process_text] *)

Section MorePipeline.
Context `{!StrLower}.

Lemma mapped_words (tokens : list pystr) :
  (map_function <$> tokens).*1 = lower <$> tokens.
Proof. by rewrite <-list_fmap_compose. Qed.

Lemma count_word_mapped (w : pystr) (tokens : list pystr) :
  count_word w (map_function <$> tokens)
  = Z.of_nat (length (filter (λ t, lower t = w) tokens)).
Proof.
  induction tokens as [|t l IH]; [done|].
  rewrite fmap_cons, count_word_cons, IH, filter_cons. cbn [map_function fst snd].
  case_decide; cbn [length]; lia.
Qed.

Lemma first_occurrences_elem_of (l : list pystr) (x : pystr) :
  x ∈ first_occurrences l ↔ x ∈ l.
Proof.
  induction l as [|y l IH]; [done|]. cbn [first_occurrences].
  rewrite !elem_of_cons, list_elem_of_filter, IH.
  destruct (decide (x = y)); tauto.
Qed.

Lemma first_occurrences_length (l : list pystr) :
  (length (first_occurrences l) ≤ length l)%nat.
Proof.
  induction l as [|y l IH]; [done|]. cbn [first_occurrences length].
  pose proof (length_filter (λ z, z ≠ y) (first_occurrences l)). lia.
Qed.

Lemma counter_get_item (d : Counter) (w : pystr) (c : Z) :
  NoDup (keys d) → (w, c) ∈ d → counter_get d w = c.
Proof.
  intros Hnd Hin. rewrite counter_get_to_map. unfold to_map.
  by rewrite (elem_of_list_to_map_1 (M := gmap (list N)) d w c).
Qed.

(** The tokens of a normalized text are not empty and hold neither
    whitespace nor punctuation. *)
Lemma tokens_clean (text : pystr) :
  Forall (λ t, t ≠ [] ∧ no_space t ∧ Forall (λ c, is_punctuation c = false) t)
         (split (remove_punctuation text)).
Proof.
  destruct (split_from_spec [] (remove_punctuation text)) as [Htok Hcat];
    [constructor|]. fold (split (remove_punctuation text)) in Htok, Hcat.
  apply Forall_forall. intros t Ht.
  rewrite Forall_forall in Htok. destruct (Htok t Ht) as [Hne Hsp].
  split; [done|]. split; [done|]. apply Forall_forall. intros c Hc.
  assert (c ∈ concat (split (remove_punctuation text))) as Hcc.
  { apply list_elem_of_In, in_concat. exists t.
    split; by apply list_elem_of_In. }
  rewrite Hcat in Hcc. cbn [app] in Hcc.
  apply list_elem_of_filter in Hcc as [_ Hcc].
  rewrite remove_punctuation_filter in Hcc.
  apply list_elem_of_filter in Hcc as [Hcc _]. by apply is_punctuation_false.
Qed.

(** The count [process_text] gives to a word is the number of tokens of the
    normalized text whose lowercase form is that word. *)
Theorem process_text_counts (s : scheduling) (text w : pystr) :
  ∃ word_counts,
    process_text s text = Some word_counts
    ∧ counter_get word_counts w
      = Z.of_nat (length (filter (λ t, lower t = w)
                                 (split (remove_punctuation text)))).
Proof.
  eexists. split; [apply process_text_sequential|].
  unfold shuffle_and_reduce. rewrite counter_get_foldl_reduce, count_word_mapped.
  unfold counter_get. cbn. lia.
Qed.

(** Every entry of the table of [process_text] has a count of at least one,
    and its word is the lowercase form of a token that is not empty and holds
    neither whitespace nor punctuation. *)
Theorem process_text_entries (s : scheduling) (text : pystr) :
  ∃ word_counts,
    process_text s text = Some word_counts
    ∧ Forall (λ p, 1 ≤ p.2
                   ∧ ∃ t, t ∈ split (remove_punctuation text)
                          ∧ p.1 = lower t
                          ∧ t ≠ [] ∧ no_space t
                          ∧ Forall (λ c, is_punctuation c = false) t)
             word_counts.
Proof.
  eexists. split; [apply process_text_sequential|].
  set (tokens := split (remove_punctuation text)).
  set (wc := shuffle_and_reduce (map_function <$> tokens)).
  assert (keys wc = first_occurrences (lower <$> tokens)) as Hkeys.
  { unfold wc, shuffle_and_reduce. rewrite keys_foldl_reduce, mapped_words.
    cbn [keys fmap list_fmap app].
    apply filter_all, Forall_forall. intros w _. apply not_elem_of_nil. }
  apply Forall_forall. intros [w c] Hin. cbn [fst snd].
  assert (w ∈ lower <$> tokens) as Hw.
  { apply first_occurrences_elem_of. rewrite <-Hkeys. unfold keys.
    apply list_elem_of_fmap. by exists (w, c). }
  apply list_elem_of_fmap in Hw as [t [-> Ht]].
  assert (c = Z.of_nat (length (filter (λ t', lower t' = lower t) tokens)))
    as ->.
  { rewrite <-(counter_get_item wc (lower t) c);
      [|apply NoDup_keys_shuffle_and_reduce|done].
    unfold wc, shuffle_and_reduce.
    rewrite counter_get_foldl_reduce, count_word_mapped.
    unfold counter_get. cbn. lia. }
  split.
  - assert (t ∈ filter (λ t', lower t' = lower t) tokens) as Hf
      by (by apply list_elem_of_filter).
    destruct (filter (λ t', lower t' = lower t) tokens);
      [by apply elem_of_nil in Hf | cbn [length]; lia].
  - exists t. pose proof (tokens_clean text) as Hclean.
    rewrite Forall_forall in Hclean. destruct (Hclean t Ht) as (? & ? & ?).
    done.
Qed.

(** The table has at most as many entries as there are tokens, and it is
    empty exactly when the normalized text has no token. *)
Theorem process_text_size (s : scheduling) (text : pystr) :
  ∃ word_counts,
    process_text s text = Some word_counts
    ∧ (len word_counts ≤ length (split (remove_punctuation text)))%nat
    ∧ (word_counts = [] ↔ split (remove_punctuation text) = []).
Proof.
  eexists. split; [apply process_text_sequential|].
  set (tokens := split (remove_punctuation text)).
  set (wc := shuffle_and_reduce (map_function <$> tokens)).
  assert (keys wc = first_occurrences (lower <$> tokens)) as Hkeys.
  { unfold wc, shuffle_and_reduce. rewrite keys_foldl_reduce, mapped_words.
    cbn [keys fmap list_fmap app].
    apply filter_all, Forall_forall. intros w _. apply not_elem_of_nil. }
  assert (len wc = length (first_occurrences (lower <$> tokens))) as Hlen.
  { rewrite <-Hkeys. unfold len, keys. by rewrite length_fmap. }
  split.
  - rewrite Hlen. etrans; [apply first_occurrences_length|].
    by rewrite length_fmap.
  - split.
    + intros Hwc. rewrite Hwc in Hlen. cbn in Hlen.
      destruct tokens; [done|]. by cbn in Hlen.
    + intros Htok. rewrite Htok in Hlen. cbn in Hlen.
      by destruct wc.
Qed.

End MorePipeline.

(** ** The ranking and the figure *)

Section MoreRanker.

Lemma filter_insert_desc {A : Type} (c : Z) (x : A * Z) (l : list (A * Z)) :
  filter (λ y, y.2 = c) (insert_desc x l) = filter (λ y, y.2 = c) (x :: l).
Proof.
  induction l as [|y l IH]; [done|]. cbn [insert_desc].
  destruct (Z.leb_spec y.2 x.2) as [Hle|Hlt]; [done|].
  rewrite (filter_cons _ y), IH, !(filter_cons _ x), (filter_cons _ y).
  repeat case_decide; try done. lia.
Qed.

Lemma filter_sorted_desc {A : Type} (c : Z) (l : list (A * Z)) :
  filter (λ y, y.2 = c) (sorted_desc l) = filter (λ y, y.2 = c) l.
Proof.
  induction l as [|x l IH]; [done|]. cbn [sorted_desc foldr].
  fold (sorted_desc l). by rewrite filter_insert_desc, !filter_cons, IH.
Qed.

Lemma prefix_take {A : Type} (n : nat) (l : list A) : take n l `prefix_of` l.
Proof. exists (drop n l). by rewrite take_drop. Qed.

(** Ties are broken by the order of the table: the ranked entries that have
    a given count are the first entries of the table with that count, in the
    order of the table. *)
Theorem most_common_stable (freq : Counter) (n c : Z) :
  filter (λ p, p.2 = c) (most_common freq n)
  `prefix_of` filter (λ p, p.2 = c) (items freq).
Proof.
  unfold most_common, nlargest, items. destruct (n <=? 0).
  { apply prefix_nil. }
  rewrite <-(filter_sorted_desc c freq).
  destruct (prefix_take (Z.to_nat n) (sorted_desc freq)) as [rest Hrest].
  exists (filter (λ p, p.2 = c) rest).
  by rewrite <-filter_app, <-Hrest.
Qed.

(** The first ranked entry has the largest count of the table. *)
Theorem most_common_head_max (freq : Counter) (n : Z) (w : pystr) (c : Z) :
  0 < n → (w, c) ∈ freq →
  ∃ w0 c0 rest, most_common freq n = (w0, c0) :: rest ∧ c ≤ c0.
Proof.
  intros Hn Hin. unfold most_common, nlargest, items.
  rewrite (proj2 (Z.leb_gt n 0)) by done.
  pose proof (sorted_desc_sorted freq) as Hsorted.
  pose proof (sorted_desc_permutation freq) as Hperm.
  rewrite <-Hperm in Hin.
  destruct (sorted_desc freq) as [|[w0 c0] l]; [by apply elem_of_nil in Hin|].
  destruct (Z.to_nat n) as [|k] eqn:Hk; [lia|]. cbn [take].
  exists w0, c0, (take k l). split; [done|].
  apply elem_of_cons in Hin as [Heq|Hin]; [simplify_eq; lia|].
  apply StronglySorted_inv in Hsorted as [_ Hall].
  rewrite Forall_forall in Hall. by apply (Hall (w, c)).
Qed.

Lemma most_common_head_max_witness :
  let freq := [(str "c", 1); (str "a", 3); (str "b", 2)] in
  0 < 2 ∧ (str "b", 2) ∈ freq
  ∧ ∃ w0 c0 rest, most_common freq 2 = (w0, c0) :: rest ∧ 2 ≤ c0.
Proof.
  intros freq.
  assert ((str "b", 2) ∈ freq) as Hin.
  { unfold freq. rewrite !elem_of_cons. right. right. by left. }
  split; [lia|]. split; [exact Hin|].
  apply (most_common_head_max freq 2 (str "b") 2); [lia | exact Hin].
Defined.

(** Asking for more entries only extends the ranking. *)
Theorem most_common_prefix (freq : Counter) (n m : Z) :
  n ≤ m → most_common freq n `prefix_of` most_common freq m.
Proof.
  intros Hnm. unfold most_common, nlargest, items.
  destruct (Z.leb_spec n 0) as [Hn|Hn]; [apply prefix_nil|].
  rewrite (proj2 (Z.leb_gt m 0)) by lia.
  replace (take (Z.to_nat n) (sorted_desc freq))
    with (take (Z.to_nat n) (take (Z.to_nat m) (sorted_desc freq))).
  - apply prefix_take.
  - rewrite take_take. f_equal. lia.
Qed.

Lemma most_common_prefix_witness :
  let freq := [(str "c", 1); (str "a", 3); (str "b", 2)] in
  1 ≤ 2 ∧ most_common freq 1 `prefix_of` most_common freq 2.
Proof.
  intros freq. split; [lia|]. apply most_common_prefix. lia.
Defined.

(** [visualize] raises exactly when [top_n] is not positive or the table is
    empty. *)
Theorem visualize_raises_when (word_counts : Counter) (top_n : Z) :
  visualize word_counts top_n = inl (ValueError 2 0)
  ↔ top_n ≤ 0 ∨ word_counts = [].
Proof.
  rewrite visualize_raises_iff. unfold most_common, items.
  destruct (nlargest_spec top_n word_counts) as [Hpos Hneg].
  destruct (Z.leb_spec top_n 0) as [Hn|Hn].
  - split; [by left | intros _; by apply Hneg].
  - destruct (Hpos Hn) as (Hlen & _). split.
    + intros Hnil. right. rewrite Hnil in Hlen. cbn in Hlen.
      destruct word_counts; [done | cbn in Hlen; lia].
    + intros [? | ->]; [lia|].
      destruct (nlargest top_n []); [done | cbn in Hlen; lia].
Qed.

(** For a positive [top_n] and a table that is not empty, [visualize] draws
    the ranked entries: their counts as bar widths and their words as labels,
    [min(top_n, len(word_counts))] of each. *)
Theorem visualize_figure (word_counts : Counter) (top_n : Z) :
  0 < top_n → word_counts ≠ [] →
  visualize word_counts top_n
  = inr (Figure (Counts (most_common word_counts top_n).*2)
                (Words (most_common word_counts top_n).*1))
  ∧ length (most_common word_counts top_n).*2
    = Nat.min (Z.to_nat top_n) (len word_counts)
  ∧ length (most_common word_counts top_n).*1
    = Nat.min (Z.to_nat top_n) (len word_counts).
Proof.
  intros Hn Hne. unfold visualize, most_common, items.
  destruct (nlargest_spec top_n word_counts) as [Hpos _].
  destruct (Hpos Hn) as (Hlen & _). rewrite !length_fmap.
  split; [|by split].
  destruct (nlargest top_n word_counts) as [|r rows]; [|done].
  destruct word_counts; [done | cbn in Hlen; lia].
Qed.

Lemma visualize_figure_witness :
  let word_counts := [(str "c", 1); (str "a", 3); (str "b", 2)] in
  0 < 2 ∧ word_counts ≠ []
  ∧ visualize word_counts 2
    = inr (Figure (Counts (most_common word_counts 2).*2)
                  (Words (most_common word_counts 2).*1))
  ∧ length (most_common word_counts 2).*2
    = Nat.min (Z.to_nat 2) (len word_counts)
  ∧ length (most_common word_counts 2).*1
    = Nat.min (Z.to_nat 2) (len word_counts).
Proof.
  intros word_counts. split; [lia|]. split; [done|].
  apply visualize_figure; [lia | done].
Defined.

End MoreRanker.

(** ** The run after a successful fetch *)

Section MoreRun.
Context `{!StrLower}.

Lemma raise_for_status_None (status_code : Z) :
  ¬ (400 ≤ status_code < 600) → raise_for_status status_code = None.
Proof.
  intros Hok. unfold raise_for_status.
  destruct (Z.leb_spec 400 status_code), (Z.ltb_spec status_code 600);
    cbn; [lia | done..].
Qed.

Lemma fetch_ok (network : pystr → response) (url : pystr) (status_code : Z)
    (text : pystr) :
  network url = Response status_code text → ¬ (400 ≤ status_code < 600) →
  fetch network url = ([], Some text).
Proof.
  intros Hnet Hok. unfold fetch. by rewrite Hnet, raise_for_status_None.
Qed.

Lemma shuffle_and_reduce_nil (mapped : list (pystr * Z)) :
  shuffle_and_reduce mapped = [] → mapped = [].
Proof.
  intros Hnil. apply (f_equal keys) in Hnil.
  unfold shuffle_and_reduce in Hnil. rewrite keys_foldl_reduce in Hnil.
  destruct mapped as [|[w c] l]; [done|].
  cbn [keys fmap list_fmap app fst first_occurrences] in Hnil.
  rewrite filter_cons_True in Hnil by apply not_elem_of_nil. done.
Qed.

Lemma most_common_nonempty (word_counts : Counter) (n : Z) :
  0 < n → word_counts ≠ [] → most_common word_counts n ≠ [].
Proof.
  intros Hn Hne Hnil. unfold most_common, items in Hnil.
  destruct (nlargest_spec n word_counts) as [Hpos _].
  destruct (Hpos Hn) as (Hlen & _). rewrite Hnil in Hlen.
  destruct word_counts; [done | cbn in Hlen; lia].
Qed.

(** An answer that is not an error but has an empty body is treated like a
    failed fetch: the run logs that it cannot proceed and calls neither
    [process_text] nor [visualize]. *)
Theorem run_empty_body (network : pystr → response) (s : scheduling)
    (url : pystr) (status_code : Z) :
  network url = Response status_code [] → ¬ (400 ≤ status_code < 600) →
  run_url network s url = [LogFailedToProceed].
Proof.
  intros Hnet Hok. unfold run_url. by rewrite (fetch_ok _ _ _ _ Hnet Hok).
Qed.

(** A fetched text that is not empty but has no token (only punctuation and
    whitespace) is processed into an empty table, on which [visualize]
    raises a [ValueError] that nothing catches. *)
Theorem run_no_token (network : pystr → response) (s : scheduling)
    (url : pystr) (status_code : Z) (text : pystr) :
  network url = Response status_code text → ¬ (400 ≤ status_code < 600) →
  text ≠ [] → split (remove_punctuation text) = [] →
  run_url network s url
  = [CallProcessText text; CallVisualize [] 10; Uncaught (ValueError 2 0)].
Proof.
  intros Hnet Hok Hne Htok. unfold run_url.
  rewrite (fetch_ok _ _ _ _ Hnet Hok), process_text_sequential, Htok.
  by destruct text.
Qed.

(** A fetched text with at least one token is processed and visualized
    without error: the run is the call of [process_text] on the text
    followed by the call of [visualize] on its table with [top_n = 10]. *)
Theorem run_with_tokens (network : pystr → response) (s : scheduling)
    (url : pystr) (status_code : Z) (text : pystr) :
  network url = Response status_code text → ¬ (400 ≤ status_code < 600) →
  split (remove_punctuation text) ≠ [] →
  run_url network s url
  = [CallProcessText text;
     CallVisualize
       (shuffle_and_reduce (map_function <$> split (remove_punctuation text)))
       10].
Proof.
  intros Hnet Hok Htok. unfold run_url.
  rewrite (fetch_ok _ _ _ _ Hnet Hok), process_text_sequential.
  destruct text as [|c text]; [done|].
  set (wc := shuffle_and_reduce _).
  assert (wc ≠ []) as Hwc.
  { intros Hnil. apply shuffle_and_reduce_nil, fmap_nil_inv in Hnil. done. }
  assert (most_common wc 10 ≠ []) as Hrank
    by (by apply most_common_nonempty).
  unfold visualize. destruct (most_common wc 10) as [|r rows]; [done|].
  done.
Qed.

End MoreRun.

Lemma run_empty_body_witness :
  let network := λ _ : pystr, Response 204 [] in
  (network URL = Response 204 [] ∧ ¬ (400 ≤ 204 < 600))
  ∧ run_url (str_lower := ascii_lower) network (Scheduling 4 []) URL
    = [LogFailedToProceed].
Proof.
  intros network. split; [split; [reflexivity | lia]|].
  apply (run_empty_body (H := ascii_lower) network _ URL 204);
    [reflexivity | lia].
Defined.

Lemma run_no_token_witness :
  let network := λ _ : pystr, Response 200 (str "... !") in
  (network URL = Response 200 (str "... !") ∧ ¬ (400 ≤ 200 < 600)
   ∧ str "... !" ≠ [] ∧ split (remove_punctuation (str "... !")) = [])
  ∧ run_url (str_lower := ascii_lower) network (Scheduling 4 []) URL
    = [CallProcessText (str "... !"); CallVisualize [] 10;
       Uncaught (ValueError 2 0)].
Proof.
  intros network.
  split; [split; [reflexivity | split; [lia | split; [done | reflexivity]]]|].
  apply (run_no_token (H := ascii_lower) network _ URL 200 (str "... !"));
    [reflexivity | lia | done | reflexivity].
Defined.

Lemma run_with_tokens_witness :
  let network := λ _ : pystr, Response 200 (str "a, b a") in
  (network URL = Response 200 (str "a, b a") ∧ ¬ (400 ≤ 200 < 600)
   ∧ split (remove_punctuation (str "a, b a")) ≠ [])
  ∧ run_url (str_lower := ascii_lower) network (Scheduling 4 []) URL
    = [CallProcessText (str "a, b a");
       CallVisualize
         (shuffle_and_reduce
            (map_function (str_lower := ascii_lower) <$>
               split (remove_punctuation (str "a, b a"))))
         10].
Proof.
  intros network.
  split; [split; [reflexivity | split; [lia | done]]|].
  apply (run_with_tokens (H := ascii_lower) network _ URL 200 (str "a, b a"));
    [reflexivity | lia | done].
Defined.

(** ** The file organizer: where files go, and what is left alone *)

Section MoreFileOrganizer.
Import Task1.

Lemma rfind_None (c : N) (s : pystr) : rfind c s = None → c ∉ s.
Proof.
  induction s as [|x s IH]; cbn [rfind]; [intros _; apply not_elem_of_nil|].
  destruct (rfind c s); [done|]. case_decide as Hx; [done|].
  intros _. rewrite not_elem_of_cons. split; [congruence | by apply IH].
Qed.

Lemma rfind_Some (c : N) (s : pystr) (i : nat) :
  rfind c s = Some i →
  (i < length s)%nat ∧ drop i s = c :: drop (S i) s ∧ c ∉ drop (S i) s.
Proof.
  revert i. induction s as [|x s IH]; intros i; cbn [rfind]; [done|].
  destruct (rfind c s) as [j|] eqn:Hj.
  - intros [= <-]. destruct (IH j eq_refl) as (Hlt & Hdrop & Hout).
    cbn [length drop]. split; [lia|]. by split.
  - case_decide as Hx; [|done]. intros [= <-]. subst x.
    cbn [length drop]. split; [lia|]. split; [done|]. by apply rfind_None.
Qed.

(** The suffix is empty, or it is the last dot of the name and the
    characters after it, of which there is at least one, the dot not being
    the first character of the name. *)
Lemma suffix_cases (p : path) :
  suffix p = []
  ∨ ∃ stem ext, stem ≠ [] ∧ ext ≠ [] ∧ (46%N ∉ ext)
                ∧ name p = stem ++ 46%N :: ext ∧ suffix p = 46%N :: ext.
Proof.
  unfold suffix. destruct (rfind 46%N (name p)) as [i|] eqn:Hi; [|by left].
  case_bool_decide as Hrange; [|by left]. right.
  destruct (rfind_Some _ _ _ Hi) as (Hlt & Hdrop & Hout).
  exists (take i (name p)), (drop (S i) (name p)).
  split; [|split; [|split; [done|split; [|done]]]].
  - intros Hnil. apply (f_equal length) in Hnil.
    rewrite length_take in Hnil. cbn in Hnil. lia.
  - intros Hnil. apply (f_equal length) in Hnil.
    rewrite length_drop in Hnil. cbn in Hnil. lia.
  - by rewrite <-Hdrop, take_drop.
Qed.

Lemma dest_folder_cases (output_folder file : path) :
  dest_folder_of output_folder file = output_folder
  ∨ ∃ ext, ext ≠ [] ∧ (46%N ∉ ext)
           ∧ dest_folder_of output_folder file = output_folder ++ [ext].
Proof.
  unfold dest_folder_of.
  destruct (suffix_cases file) as [->|(stem & ext & _ & Hext & Hdot & _ & ->)].
  - by left.
  - right. exists ext. cbn [drop]. by destruct ext.
Qed.

Lemma mkdir_cases (fs : filesystem) (d : path) :
  mkdir_exist_ok fs d = inr fs ∧ stat fs d = Some Dir
  ∨ mkdir_exist_ok fs d = inr (<[d := Dir]> fs)
    ∧ stat fs d = None ∧ stat fs (parent d) = Some Dir
  ∨ (∃ e, mkdir_exist_ok fs d = inl e) ∧ ¬ creatable fs d.
Proof.
  unfold mkdir_exist_ok, creatable.
  destruct (stat fs d) as [[c|]|]; [right; right | by left |].
  { split; [by eexists|]. by intros [?|[? _]]. }
  destruct (stat fs (parent d)) as [[c|]|]; right; [right | by left | right].
  - split; [by eexists|]. by intros [?|[_ ?]].
  - split; [by eexists|]. by intros [?|[_ ?]].
Qed.

Lemma shutil_copy_cases (fs : filesystem) (src dst : path) :
  stat fs dst = None →
  (∃ c, stat fs src = Some (File c) ∧ stat fs (parent dst) = Some Dir
        ∧ shutil_copy fs src dst = inr (<[dst := File c]> fs))
  ∨ (∃ e, shutil_copy fs src dst = inl e)
    ∧ ¬ ((∃ c, stat fs src = Some (File c)) ∧ stat fs (parent dst) = Some Dir).
Proof.
  intros Hdst. unfold shutil_copy.
  destruct (stat fs src) as [[c|]|]; rewrite ?Hdst.
  - destruct (stat fs (parent dst)) as [[c'|]|].
    + right. split; [by eexists|]. by intros [_ ?].
    + left. by exists c.
    + right. split; [by eexists|]. by intros [_ ?].
  - right. split; [by eexists|]. by intros [[c ?] _].
  - right. split; [by eexists|]. by intros [[c ?] _].
Qed.

Lemma exists_false (fs : filesystem) (p : path) :
  exists_ fs p = false → stat fs p = None.
Proof.
  unfold exists_. intros Hex. apply bool_decide_eq_false in Hex.
  destruct (stat fs p); [|done]. exfalso. by apply Hex.
Qed.

Lemma exists_true (fs : filesystem) (p : path) :
  exists_ fs p = true → is_Some (stat fs p).
Proof. unfold exists_. intros Hex. by apply bool_decide_eq_true in Hex. Qed.

(** What a call of [copy_file] can change: it logs one event, and a path
    keeps what it holds, unless it held nothing and is the destination
    folder, which becomes a directory, or the destination file, which
    becomes a copy of the file. *)
Lemma copy_file_effect (output_folder file : path) (fs : filesystem)
    (log : list event) :
  ∃ fs' ev,
    copy_file output_folder (fs, log) file = (fs', log ++ [ev])
    ∧ ∀ p, stat fs' p = stat fs p
           ∨ stat fs p = None
             ∧ (p = dest_folder_of output_folder file ∧ stat fs' p = Some Dir
                ∨ p = dest_file_of output_folder file
                  ∧ ∃ c, stat fs file = Some (File c)
                         ∧ stat fs' p = Some (File c)).
Proof.
  unfold dest_file_of, dest_folder_of, copy_file.
  set (d := joinpath output_folder (drop 1 (suffix file))).
  set (df := d ++ [name file]).
  assert (d ≠ df) as Hddf by apply snoc_ne.
  assert (df ≠ []) as Hdf by (unfold df; by destruct d).
  destruct (mkdir_cases fs d) as [[-> Hd]|[(-> & Hd & Hparent)|[[e ->] _]]].
  - (* the folder is there *)
    destruct (exists_ fs df) eqn:Hex.
    { eexists fs, _. split; [done|]. by left. }
    apply exists_false in Hex.
    destruct (shutil_copy_cases fs file df Hex)
      as [(c & Hfile & _ & ->)|[[e ->] _]].
    + eexists _, _. split; [done|]. intros p.
      destruct (decide (p = df)) as [->|Hp].
      * right. split; [done|]. right. split; [done|]. exists c.
        split; [done|]. by apply stat_insert_eq.
      * left. by apply stat_insert_ne.
    + eexists fs, _. split; [done|]. by left.
  - (* the folder is created *)
    assert (d ≠ []) as Hdne by (intros Heq; rewrite Heq in Hd; done).
    set (fs1 := <[d := Dir]> fs).
    assert (∀ p, stat fs1 p = stat fs p
                 ∨ stat fs p = None ∧ p = d ∧ stat fs1 p = Some Dir) as Hfs1.
    { intros p. destruct (decide (p = d)) as [->|Hp].
      - right. split; [done|]. split; [done|]. by apply stat_insert_eq.
      - left. by apply stat_insert_ne. }
    destruct (exists_ fs1 df) eqn:Hex.
    { eexists fs1, _. split; [done|]. intros p.
      destruct (Hfs1 p) as [?|(? & ? & ?)]; [by left|]. right. eauto. }
    apply exists_false in Hex.
    destruct (shutil_copy_cases fs1 file df Hex)
      as [(c & Hfile & _ & ->)|[[e ->] _]].
    + eexists _, _. split; [done|]. intros p.
      destruct (decide (p = df)) as [->|Hp].
      * right. split.
        { destruct (Hfs1 df) as [<-|(_ & ? & _)]; done. }
        right. split; [done|]. exists c. split; [|by apply stat_insert_eq].
        destruct (Hfs1 file) as [<-|(_ & _ & Hdir)]; [done|congruence].
      * rewrite stat_insert_ne by done.
        destruct (Hfs1 p) as [?|(? & ? & ?)]; [by left|]. right. eauto.
    + eexists fs1, _. split; [done|]. intros p.
      destruct (Hfs1 p) as [?|(? & ? & ?)]; [by left|]. right. eauto.
  - (* the folder cannot be made *)
    eexists fs, _. split; [done|]. by left.
Qed.


Lemma copy_file_mono (output_folder file : path) (fs : filesystem)
    (log : list event) (p : path) (n : node) :
  stat fs p = Some n →
  stat (copy_file output_folder (fs, log) file).1 p = Some n.
Proof.
  intros Hp.
  destruct (copy_file_effect output_folder file fs log) as (fs' & ev & -> & Heff).
  cbn [fst]. destruct (Heff p) as [->|[Hnone _]]; [done|congruence].
Qed.

Lemma copy_file_log (output_folder file : path) (fs : filesystem)
    (log : list event) :
  length (copy_file output_folder (fs, log) file).2 = S (length log).
Proof.
  destruct (copy_file_effect output_folder file fs log) as (fs' & ev & -> & _).
  cbn [snd]. rewrite length_app. cbn. lia.
Qed.

(** A successful copy, with the file system it leaves. *)
Lemma copy_file_success (output_folder file : path) (fs : filesystem)
    (log : list event) (c : pystr) :
  stat fs file = Some (File c) →
  creatable fs (dest_folder_of output_folder file) →
  stat fs (dest_file_of output_folder file) = None →
  ∃ fs1,
    (∀ p, p ≠ dest_folder_of output_folder file → stat fs1 p = stat fs p)
    ∧ stat fs1 (dest_folder_of output_folder file) = Some Dir
    ∧ copy_file output_folder (fs, log) file
      = (<[dest_file_of output_folder file := File c]> fs1,
         log ++ [LogCopied file (dest_file_of output_folder file)]).
Proof.
  unfold dest_file_of, dest_folder_of, copy_file.
  set (d := joinpath output_folder (drop 1 (suffix file))).
  set (df := d ++ [name file]).
  intros Hfile Hd Hdf.
  assert (d ≠ df) as Hddf by apply snoc_ne.
  assert (file ≠ d) as Hfd.
  { intros Heq. rewrite Heq in Hfile. destruct Hd as [?|[? _]]; congruence. }
  assert (∃ fs1, mkdir_exist_ok fs d = inr fs1 ∧ stat fs1 d = Some Dir
                 ∧ ∀ p, p ≠ d → stat fs1 p = stat fs p)
    as (fs1 & -> & Hd1 & Hframe).
  { destruct (mkdir_cases fs d) as [[-> ?]|[(-> & Hnone & _)|[_ Hno]]];
      [by exists fs | | done].
    exists (<[d := Dir]> fs). split; [done|]. split.
    - apply stat_insert_eq. intros Heq. rewrite Heq in Hnone. done.
    - intros p Hp. by apply stat_insert_ne. }
  exists fs1. split; [done|]. split; [done|].
  assert (stat fs1 df = None) as Hdf1 by (by rewrite Hframe).
  unfold exists_. rewrite Hdf1, bool_decide_eq_false_2 by (by intros [? ?]).
  destruct (shutil_copy_cases fs1 file df Hdf1)
    as [(c' & Hfile1 & _ & ->)|[_ Hno]].
  - rewrite Hframe, Hfile in Hfile1 by done. by simplify_eq.
  - exfalso. apply Hno. split.
    + exists c. by rewrite Hframe.
    + unfold df. by rewrite parent_snoc.
Qed.

Lemma copy_file_dest_exists (output_folder file : path) (fs : filesystem)
    (log : list event) (c : pystr) :
  stat fs file = Some (File c) →
  creatable fs (dest_folder_of output_folder file) →
  is_Some (stat (copy_file output_folder (fs, log) file).1
                (dest_file_of output_folder file)).
Proof.
  intros Hfile Hd.
  destruct (stat fs (dest_file_of output_folder file)) as [n|] eqn:Hdf.
  - exists n. by apply copy_file_mono.
  - destruct (copy_file_success output_folder file fs log c Hfile Hd Hdf)
      as (fs1 & _ & _ & ->).
    cbn [fst]. exists (File c). apply stat_insert_eq.
    unfold dest_file_of. by destruct (dest_folder_of output_folder file).
Qed.

End MoreFileOrganizer.

Section FileOrganizerProperties.
Import Task1.

(** A file goes to the output folder itself when its name has no suffix, and
    otherwise to the subfolder of the output folder named by what follows the
    last dot of its name: a name that is not empty and has no dot. *)
Theorem dest_folder_shape (output_folder file : path) :
  (suffix file = [] ∧ dest_folder_of output_folder file = output_folder)
  ∨ ∃ stem ext, stem ≠ [] ∧ ext ≠ [] ∧ (46%N ∉ ext)
                ∧ name file = stem ++ 46%N :: ext
                ∧ dest_folder_of output_folder file = output_folder ++ [ext].
Proof.
  unfold dest_folder_of.
  destruct (suffix_cases file) as [->|(stem & ext & ? & ? & ? & ? & ->)].
  - by left.
  - right. exists stem, ext. cbn [drop]. by destruct ext.
Qed.

(** [copy_file] never overwrites or removes anything: every path keeps what
    it held before the call. *)
Theorem copy_file_preserves (output_folder file : path) (fs : filesystem)
    (log : list event) (p : path) (n : node) :
  stat fs p = Some n →
  stat (copy_file output_folder (fs, log) file).1 p = Some n.
Proof. apply copy_file_mono. Qed.

Lemma copy_file_preserves_witness :
  stat tree_with_readme [str "src"; str "notes.txt"] = Some (File (str "to do"))
  ∧ stat (copy_file [str "out"] (tree_with_readme, [])
                    [str "src"; str "notes.txt"]).1
         [str "src"; str "notes.txt"] = Some (File (str "to do")).
Proof.
  split; [reflexivity|]. apply copy_file_preserves. reflexivity.
Defined.

Lemma foldl_copy_file_mono (output_folder : path) (files : list path)
    (st : filesystem * list event) (p : path) (n : node) :
  stat st.1 p = Some n →
  stat (foldl (copy_file output_folder) st files).1 p = Some n.
Proof.
  revert st. induction files as [|file files IH]; intros [fs log] Hp; [done|].
  cbn [foldl]. apply IH. by apply copy_file_mono.
Qed.

(** [read_folder] never overwrites or removes anything either: the source
    tree and whatever the output folder held are still there afterwards. *)
Theorem read_folder_preserves (output_folder folder : path) (fs : filesystem)
    (p : path) (n : node) :
  stat fs p = Some n →
  stat (read_folder output_folder fs folder).1 p = Some n.
Proof. intros Hp. unfold read_folder. by apply foldl_copy_file_mono. Qed.

Lemma read_folder_preserves_witness :
  stat tree_with_readme [str "src"; str "notes.txt"] = Some (File (str "to do"))
  ∧ stat (read_folder [str "out"] tree_with_readme [str "src"]).1
         [str "src"; str "notes.txt"] = Some (File (str "to do")).
Proof.
  split; [reflexivity|]. apply read_folder_preserves. reflexivity.
Defined.

Lemma foldl_copy_file_log (output_folder : path) (files : list path)
    (st : filesystem * list event) :
  length (foldl (copy_file output_folder) st files).2
  = (length st.2 + length files)%nat.
Proof.
  revert st. induction files as [|file files IH]; intros [fs log].
  { cbn. lia. }
  cbn [foldl]. rewrite IH.
  destruct (copy_file output_folder (fs, log) file) as [fs' log'] eqn:Hcp.
  pose proof (copy_file_log output_folder file fs log) as Hlen.
  rewrite Hcp in Hlen. cbn [snd length] in *. lia.
Qed.

(** [read_folder] accounts for every listed path with exactly one log line:
    copied, skipped, or failed. *)
Theorem read_folder_log_length (output_folder folder : path) (fs : filesystem) :
  length (read_folder output_folder fs folder).2
  = length (rglob fs folder (str "*.*")).
Proof. unfold read_folder. by rewrite foldl_copy_file_log. Qed.

(** The listing of [read_folder] holds, each once, the existing paths
    strictly below the folder whose name contains a dot. *)
Theorem rglob_spec (fs : filesystem) (folder p : path) :
  (p ∈ rglob fs folder (str "*.*")
   ↔ is_Some (fs !! p) ∧ folder `prefix_of` p ∧ p ≠ folder
     ∧ 46%N ∈ name p)
  ∧ NoDup (rglob fs folder (str "*.*")).
Proof.
  unfold rglob. split.
  - rewrite list_elem_of_filter, fnmatch_star_dot_star, list_elem_of_fmap.
    split.
    + intros [(? & ? & ?) [[p' n] [-> Hin]]].
      apply elem_of_map_to_list in Hin. split; [by exists n|done].
    + intros ([n Hn] & ? & ? & ?). split; [done|].
      exists (p, n). split; [done|]. by apply elem_of_map_to_list.
  - apply NoDup_filter, NoDup_fst_map_to_list.
Qed.

End FileOrganizerProperties.

Section CopyFileCases.
Import Task1.

Lemma copy_file_copies_witness :
  let fs := tree_with_readme in
  let file := [str "src"; str "notes.txt"] in
  (stat fs file = Some (File (str "to do"))
   ∧ (stat fs (dest_folder_of [str "out"] file) = Some Dir
      ∨ stat fs (dest_folder_of [str "out"] file) = None
        ∧ stat fs (parent (dest_folder_of [str "out"] file)) = Some Dir)
   ∧ stat fs (dest_file_of [str "out"] file) = None)
  ∧ ∃ fs',
      copy_file [str "out"] (fs, []) file
      = (fs', [] ++ [LogCopied file (dest_file_of [str "out"] file)])
      ∧ stat fs' (dest_file_of [str "out"] file) = Some (File (str "to do"))
      ∧ stat fs' (dest_folder_of [str "out"] file) = Some Dir
      ∧ stat fs' file = Some (File (str "to do")).
Proof.
  intros fs file.
  assert (stat fs (dest_folder_of [str "out"] file) = Some Dir
          ∨ stat fs (dest_folder_of [str "out"] file) = None
            ∧ stat fs (parent (dest_folder_of [str "out"] file)) = Some Dir)
    as Hfolder by (right; split; reflexivity).
  split; [split; [reflexivity | split; [exact Hfolder | reflexivity]]|].
  apply copy_file_copies; [reflexivity | exact Hfolder | reflexivity].
Defined.

Lemma copy_file_skips_witness :
  let fs := tree_with_copy in
  let file := [str "src"; str "notes.txt"] in
  (stat fs (dest_folder_of [str "out"] file) = Some Dir
   ∧ is_Some (stat fs (dest_file_of [str "out"] file)))
  ∧ copy_file [str "out"] (fs, []) file
    = (fs, [] ++ [LogExists (dest_file_of [str "out"] file)]).
Proof.
  intros fs file.
  assert (is_Some (stat fs (dest_file_of [str "out"] file))) as Hdest
    by (exists (File (str "done")); reflexivity).
  split; [split; [reflexivity | exact Hdest]|].
  apply copy_file_skips; [reflexivity | exact Hdest].
Defined.

(** [copy_file] does not create the parents of the destination folder: when
    the folder and its parent are both missing, nothing changes and a
    [FileNotFoundError] is logged. *)
Theorem copy_file_missing_parent (output_folder file : path)
    (fs : filesystem) (log : list event) :
  stat fs (dest_folder_of output_folder file) = None →
  stat fs (parent (dest_folder_of output_folder file)) = None →
  copy_file output_folder (fs, log) file
  = (fs, log ++ [LogCopyError file FileNotFoundError]).
Proof.
  unfold dest_folder_of, copy_file, mkdir_exist_ok. by intros -> ->.
Qed.

Lemma copy_file_missing_parent_witness :
  let fs := tree_without_output in
  let file := [str "src"; str "notes.txt"] in
  (stat fs (dest_folder_of [str "out"] file) = None
   ∧ stat fs (parent (dest_folder_of [str "out"] file)) = None)
  ∧ copy_file [str "out"] (fs, []) file
    = (fs, [] ++ [LogCopyError file FileNotFoundError]).
Proof.
  intros fs file. split; [split; reflexivity|].
  apply copy_file_missing_parent; reflexivity.
Defined.

(** A folder whose name has a dot is listed too; handed to [copy_file], it
    is not copied ([IsADirectoryError] is logged), but the folder of its
    extension has been created by then. *)
Theorem copy_file_directory (output_folder file : path) (fs : filesystem)
    (log : list event) :
  stat fs file = Some Dir →
  creatable fs (dest_folder_of output_folder file) →
  stat fs (dest_file_of output_folder file) = None →
  ∃ fs',
    copy_file output_folder (fs, log) file
    = (fs', log ++ [LogCopyError file IsADirectoryError])
    ∧ stat fs' (dest_folder_of output_folder file) = Some Dir
    ∧ stat fs' (dest_file_of output_folder file) = None.
Proof.
  unfold dest_file_of, dest_folder_of, copy_file.
  set (d := joinpath output_folder (drop 1 (suffix file))).
  set (df := d ++ [name file]).
  intros Hfile Hd Hdf.
  assert (d ≠ df) as Hddf by apply snoc_ne.
  assert (∃ fs1, mkdir_exist_ok fs d = inr fs1 ∧ stat fs1 d = Some Dir
                 ∧ stat fs1 df = None ∧ stat fs1 file = Some Dir)
    as (fs1 & -> & Hd1 & Hdf1 & Hfile1).
  { destruct (mkdir_cases fs d) as [[-> ?]|[(-> & Hnone & _)|[_ Hno]]];
      [by exists fs | | done].
    exists (<[d := Dir]> fs). split; [done|].
    assert (d ≠ []) by (intros Heq; rewrite Heq in Hnone; done).
    split; [by apply stat_insert_eq|]. split.
    - by rewrite stat_insert_ne.
    - destruct (decide (d = file)) as [Heq|?].
      + rewrite <-Heq. by apply stat_insert_eq.
      + by rewrite stat_insert_ne. }
  exists fs1. unfold exists_. rewrite Hdf1.
  rewrite bool_decide_eq_false_2 by (by intros [? ?]).
  unfold shutil_copy. by rewrite Hfile1.
Qed.

Lemma copy_file_directory_witness :
  let fs := tree_with_dotted_folder in
  let file := [str "src"; str "v1.0"] in
  (stat fs file = Some Dir
   ∧ creatable fs (dest_folder_of [str "out"] file)
   ∧ stat fs (dest_file_of [str "out"] file) = None)
  ∧ ∃ fs',
      copy_file [str "out"] (fs, []) file
      = (fs', [] ++ [LogCopyError file IsADirectoryError])
      ∧ stat fs' (dest_folder_of [str "out"] file) = Some Dir
      ∧ stat fs' (dest_file_of [str "out"] file) = None.
Proof.
  intros fs file.
  assert (creatable fs (dest_folder_of [str "out"] file)) as Hfolder
    by (right; split; reflexivity).
  split; [split; [reflexivity | split; [exact Hfolder | reflexivity]]|].
  apply copy_file_directory; [reflexivity | exact Hfolder | reflexivity].
Defined.

(** Copying the same file a second time changes nothing: the first call
    copies it, the second one finds the copy and skips with a warning. *)
Theorem copy_file_twice (output_folder file : path) (fs : filesystem)
    (log : list event) (c : pystr) :
  stat fs file = Some (File c) →
  creatable fs (dest_folder_of output_folder file) →
  stat fs (dest_file_of output_folder file) = None →
  copy_file output_folder (copy_file output_folder (fs, log) file) file
  = ((copy_file output_folder (fs, log) file).1,
     log ++ [LogCopied file (dest_file_of output_folder file);
             LogExists (dest_file_of output_folder file)]).
Proof.
  intros Hfile Hd Hdf.
  destruct (copy_file_success output_folder file fs log c Hfile Hd Hdf)
    as (fs1 & _ & Hd1 & ->). cbn [fst].
  set (d := dest_folder_of output_folder file) in *.
  set (df := dest_file_of output_folder file) in *.
  assert (df ≠ d) as Hne.
  { intros Heq. apply (snoc_ne d (name file)). symmetry. exact Heq. }
  assert (df ≠ []) as Hdfne.
  { intros Heq. apply (f_equal length) in Heq.
    unfold df, dest_file_of in Heq. rewrite length_app in Heq.
    cbn in Heq. lia. }
  unfold copy_file.
  change (joinpath output_folder (drop 1 (suffix file))) with d.
  change (d ++ [name file]) with df.
  unfold mkdir_exist_ok. rewrite stat_insert_ne, Hd1 by done.
  unfold exists_. rewrite stat_insert_eq by done.
  rewrite bool_decide_eq_true_2 by (by eexists).
  by rewrite <-app_assoc.
Qed.

Lemma copy_file_twice_witness :
  let fs := tree_with_readme in
  let file := [str "src"; str "notes.txt"] in
  (stat fs file = Some (File (str "to do"))
   ∧ creatable fs (dest_folder_of [str "out"] file)
   ∧ stat fs (dest_file_of [str "out"] file) = None)
  ∧ copy_file [str "out"] (copy_file [str "out"] (fs, []) file) file
    = ((copy_file [str "out"] (fs, []) file).1,
       [] ++ [LogCopied file (dest_file_of [str "out"] file);
              LogExists (dest_file_of [str "out"] file)]).
Proof.
  intros fs file.
  assert (creatable fs (dest_folder_of [str "out"] file)) as Hfolder
    by (right; split; reflexivity).
  split; [split; [reflexivity | split; [exact Hfolder | reflexivity]]|].
  apply (copy_file_twice [str "out"] file fs [] (str "to do"));
    [reflexivity | exact Hfolder | reflexivity].
Defined.

End CopyFileCases.

Section ReadFolder.
Import Task1.

Lemma read_folder_no_dot_witness :
  (∀ p, is_Some (tree_without_dots !! p) → 46%N ∉ name p)
  ∧ read_folder [str "out"] tree_without_dots [str "src"]
    = (tree_without_dots, []).
Proof.
  assert (∀ p, is_Some (tree_without_dots !! p) → 46%N ∉ name p) as Hnodot.
  { intros p [n Hn]. unfold tree_without_dots in Hn.
    apply elem_of_list_to_map_2 in Hn.
    rewrite !elem_of_cons, elem_of_nil in Hn.
    intros Hin. apply list_elem_of_In in Hin.
    destruct Hn as [Hn|[Hn|[Hn|[]]]]; simplify_eq;
      vm_compute in Hin; intuition discriminate. }
  split; [exact Hnodot|]. apply read_folder_no_dot. exact Hnodot.
Defined.

Lemma creatable_dest_folder (output_folder file : path) (fs : filesystem) :
  stat fs output_folder = Some Dir →
  (∀ c, stat fs (dest_folder_of output_folder file) ≠ Some (File c)) →
  creatable fs (dest_folder_of output_folder file).
Proof.
  intros Hout Hfree. unfold creatable.
  destruct (dest_folder_cases output_folder file)
    as [Heq|(ext & _ & _ & Heq)]; rewrite Heq in *.
  - by left.
  - rewrite parent_snoc.
    destruct (stat fs (output_folder ++ [ext])) as [[c|]|] eqn:Hd.
    + by destruct (Hfree c).
    + by left.
    + by right.
Qed.

(** The destination folder of one listed path is never the destination file
    of another: the former has a name without dot, the latter the name of a
    listed path. *)
Lemma dest_folder_ne_dest_file (output_folder q r : path) :
  46%N ∈ name q →
  dest_folder_of output_folder r ≠ dest_file_of output_folder q.
Proof.
  intros Hdot Heq. unfold dest_file_of in Heq.
  destruct (dest_folder_cases output_folder r) as [Hr|(er & _ & Hnodot & Hr)],
    (dest_folder_cases output_folder q) as [Hq|(eq' & _ & _ & Hq)];
    rewrite Hr, Hq in Heq.
  - by apply snoc_ne in Heq.
  - apply (f_equal length) in Heq. rewrite !length_app in Heq. cbn in Heq. lia.
  - apply app_inv_head in Heq. by simplify_eq.
  - rewrite <-app_assoc in Heq. apply app_inv_head in Heq. cbn in Heq.
    by simplify_eq.
Qed.

Lemma foldl_copy_file_listed (output_folder : path) (files : list path) :
  ∀ (fs : filesystem) (log : list event),
    stat fs output_folder = Some Dir →
    Forall (λ q, 46%N ∈ name q
                 ∧ ∀ c, stat fs (dest_folder_of output_folder q)
                        ≠ Some (File c)) files →
    ∀ p c, p ∈ files → stat fs p = Some (File c) →
           is_Some (stat (foldl (copy_file output_folder) (fs, log) files).1
                         (dest_file_of output_folder p)).
Proof.
  induction files as [|q rest IH]; intros fs log Hout Hfiles p c Hp Hfile.
  { by apply elem_of_nil in Hp. }
  apply Forall_cons in Hfiles as [[Hqdot Hqfree] Hrest]. cbn [foldl].
  destruct (copy_file_effect output_folder q fs log)
    as (fs1 & ev & Hcopy & Heff).
  assert (∀ p' n, stat fs p' = Some n → stat fs1 p' = Some n) as Hmono.
  { intros p' n Hp'. destruct (Heff p') as [->|[Hnone _]]; [done|congruence]. }
  assert (Forall (λ r, 46%N ∈ name r
                       ∧ ∀ c', stat fs1 (dest_folder_of output_folder r)
                               ≠ Some (File c')) rest) as Hrest1.
  { eapply Forall_impl; [exact Hrest|]. intros r [Hrdot Hrfree].
    split; [done|]. intros c' Hc'.
    destruct (Heff (dest_folder_of output_folder r))
      as [Hsame|[_ [[_ Hdir]|[Heq _]]]].
    - rewrite Hsame in Hc'. by apply (Hrfree c').
    - congruence.
    - by apply (dest_folder_ne_dest_file output_folder q r). }
  apply elem_of_cons in Hp as [->|Hp].
  - pose proof (copy_file_dest_exists output_folder q fs log c Hfile
                  (creatable_dest_folder _ _ _ Hout Hqfree)) as [n Hn].
    rewrite Hcopy in Hn |- *. cbn [fst] in Hn. exists n.
    by apply (foldl_copy_file_mono output_folder rest (fs1, log ++ [ev])).
  - rewrite Hcopy. apply (IH fs1 (log ++ [ev])) with c; auto.
Qed.

(** When the output folder is there and no file stands where a destination
    folder has to be, every listed file has its destination in place once
    [read_folder] is done: it was there already, or a file of that name has
    been copied to it. *)
Theorem read_folder_copies_listed (output_folder folder : path)
    (fs : filesystem) (p : path) (c : pystr) :
  stat fs output_folder = Some Dir →
  Forall (λ q, ∀ c', stat fs (dest_folder_of output_folder q)
                     ≠ Some (File c'))
         (rglob fs folder (str "*.*")) →
  p ∈ rglob fs folder (str "*.*") →
  stat fs p = Some (File c) →
  is_Some (stat (read_folder output_folder fs folder).1
                (dest_file_of output_folder p)).
Proof.
  intros Hout Hfree Hp Hfile. unfold read_folder.
  apply foldl_copy_file_listed with c; [done| |done|done].
  apply Forall_forall. intros q Hq. split.
  - by apply (rglob_star_dot_star fs folder q).
  - rewrite Forall_forall in Hfree. by apply Hfree.
Qed.

Lemma read_folder_copies_listed_witness :
  let fs := tree_with_readme in
  let file := [str "src"; str "notes.txt"] in
  (stat fs [str "out"] = Some Dir
   ∧ Forall (λ q, ∀ c', stat fs (dest_folder_of [str "out"] q)
                        ≠ Some (File c'))
            (rglob fs [str "src"] (str "*.*"))
   ∧ file ∈ rglob fs [str "src"] (str "*.*")
   ∧ stat fs file = Some (File (str "to do")))
  ∧ is_Some (stat (read_folder [str "out"] fs [str "src"]).1
                  (dest_file_of [str "out"] file)).
Proof.
  intros fs file.
  assert (rglob fs [str "src"] (str "*.*") = [file]) as Hlist
    by (vm_compute; reflexivity).
  assert (Forall (λ q, ∀ c', stat fs (dest_folder_of [str "out"] q)
                             ≠ Some (File c'))
                 (rglob fs [str "src"] (str "*.*"))) as Hfree.
  { rewrite Hlist. apply Forall_singleton. intros c'. vm_compute. discriminate. }
  assert (file ∈ rglob fs [str "src"] (str "*.*")) as Hin.
  { rewrite Hlist. apply list_elem_of_singleton. reflexivity. }
  split; [split; [reflexivity | split; [exact Hfree | split; [exact Hin | reflexivity]]]|].
  apply (read_folder_copies_listed [str "out"] [str "src"] fs file (str "to do"));
    [reflexivity | exact Hfree | exact Hin | reflexivity].
Defined.

End ReadFolder.
